(** * RRT motion planner (Problem_2/rrt.py): shallow embedding and properties

    The planner is embedded as executable Rocq functions.

    - numpy float64 arrays are lists of primitive IEEE-754 binary64 floats
      (an integer array such as [np.array([0, 0])] is held by the float64
      values of its entries, which is what the arithmetic and the
      comparisons of the planner see);
    - indices are integers, with Python's negative indexing and IndexError;
    - Python exceptions are values of [exn], threaded by the [Outcome] monad;
    - numpy's implicit global generator [np.random] is a field of the
      [World] that [solve] reads and updates;
    - the [while] loop of the path reconstruction runs on [fuel], the number
      of times its test may be evaluated;
    - the collaborators that are not part of the file (trigonometry, the
      Dubins curve library, the segment intersection test of [utils]) are
      fields of a record [External], taken by every definition that calls
      one of them. *)

From Stdlib Require Import PrimFloat ZArith String.
From Stdlib Require SpecFloat FloatOps FloatAxioms.
From stdpp Require Import base list.

Local Open Scope Z_scope.

(** ** Python exceptions and fallible computations *)

Inductive exn : Type :=
  | NotImplementedError (msg : string)
  | AttributeError (attr : string)
  | IndexError
  | ValueError
  | OverflowError
  | UnboundLocalError (name : string).

(** [OutOfFuel] is not a Python outcome: it is what the model answers when the
    [while] loop of the path reconstruction was given too few steps. *)
Inductive Outcome (A : Type) : Type :=
  | Ret (a : A)
  | Raise (e : exn)
  | OutOfFuel.
Arguments Ret {A} a.
Arguments Raise {A} e.
Arguments OutOfFuel {A}.

Global Instance Outcome_ret : MRet Outcome := λ A a, Ret a.
Global Instance Outcome_bind : MBind Outcome := λ A B f m,
  match m with
  | Ret a => f a
  | Raise e => Raise e
  | OutOfFuel => OutOfFuel
  end.

(** ** Python sequences indexed by integers *)

Section PySeq.
Context {A : Type}.

Definition len (l : list A) : Z := Z.of_nat (length l).

(** [l[i]]: negative indices count from the end, anything outside
    [-len, len) raises IndexError. *)
Definition norm_index (l : list A) (i : Z) : Outcome nat :=
  if (i <? - len l) || (len l <=? i) then Raise IndexError
  else Ret (Z.to_nat (if i <? 0 then i + len l else i)).

Definition getitem (l : list A) (i : Z) : Outcome A :=
  j ← norm_index l i;
  match l !! j with
  | Some a => Ret a
  | None => Raise IndexError
  end.

(** [l[i] = a] *)
Definition setitem (l : list A) (i : Z) (a : A) : Outcome (list A) :=
  j ← norm_index l i;
  Ret (<[j := a]> l).

(** [l[:k]] *)
Definition slice_to (l : list A) (k : Z) : list A :=
  if k <? 0 then take (Z.to_nat (len l + k)) l else take (Z.to_nat k) l.
End PySeq.

(** ** numpy arrays of float64 *)

(** A one-dimensional array, and so a Configuration. *)
Abbreviation Config := (list float) (only parsing).

(** A two-dimensional array, by rows. *)
Abbreviation Matrix := (list (list float)) (only parsing).

(** [np.zeros((rows, cols))]; a negative dimension is a ValueError. *)
Definition np_zeros (rows : Z) (cols : nat) : Outcome Matrix :=
  if rows <? 0 then Raise ValueError
  else Ret (replicate (Z.to_nat rows) (replicate cols 0%float)).

(** [-np.ones(rows, dtype=int)] *)
Definition np_minus_ones (rows : Z) : Outcome (list Z) :=
  if rows <? 0 then Raise ValueError
  else Ret (replicate (Z.to_nat rows) (-1)).

(** [M[i,:] = x]: the row is overwritten by the values of [x]; a one-element
    [x] is broadcast over the row, any other length mismatch is a
    ValueError. *)
Definition set_row (M : Matrix) (i : Z) (x : Config) : Outcome Matrix :=
  j ← norm_index M i;
  match M !! j with
  | None => Raise IndexError
  | Some row =>
      if Nat.eqb (length x) (length row) then Ret (<[j := x]> M)
      else match x with
           | [v] => Ret (<[j := replicate (length row) v]> M)
           | _ => Raise ValueError
           end
  end.

(** [np.array_equal(a, b)]: same shape and all elements [==]. *)
Fixpoint array_equal (a b : Config) : bool :=
  match a, b with
  | [], [] => true
  | x :: a', y :: b' => PrimFloat.eqb x y && array_equal a' b'
  | _, _ => false
  end.

(** [a - b] and [a + b] on one-dimensional arrays, with numpy's
    broadcasting. *)
Definition broadcast2 (op : float → float → float) (a b : Config)
  : Outcome Config :=
  if Nat.eqb (length a) (length b) then Ret (zip_with op a b)
  else match a, b with
       | [u], _ => Ret (map (λ v, op u v) b)
       | _, [v] => Ret (map (λ u, op u v) a)
       | _, _ => Raise ValueError
       end.

Definition np_sub : Config → Config → Outcome Config := broadcast2 PrimFloat.sub.
Definition np_add : Config → Config → Outcome Config := broadcast2 PrimFloat.add.

(** [np.linalg.norm(x)] of a one-dimensional array: the square root of the
    dot product of [x] with itself.  The products are summed here from left
    to right, each product and each sum rounded on its own; numpy leaves the
    order and the fusing of these operations to its BLAS, so its value can
    differ from this one in the last place.  No statement below depends on
    the value beyond its being one double. *)
Definition np_norm (x : Config) : float :=
  PrimFloat.sqrt (foldl (λ acc v, PrimFloat.add acc (PrimFloat.mul v v)) 0%float x).

(** [np.argmin(d)]: the first index of the minimum; a NaN counts as the
    minimum, and the first NaN wins.  [mp] is the running minimum, [idx] its
    index, [i] the index of the head of the remaining list. *)
Fixpoint argmin_from (mp : float) (idx i : Z) (d : list float) : Z :=
  match d with
  | [] => idx
  | x :: d' =>
      if PrimFloat.is_nan mp then idx
      else if negb (PrimFloat.leb mp x) then argmin_from x i (i + 1) d'
      else argmin_from mp idx (i + 1) d'
  end.

Definition np_argmin (d : list float) : Outcome Z :=
  match d with
  | [] => Raise ValueError
  | x :: d' => Ret (argmin_from x 0 1 d')
  end.

(** ** The global random generator *)

(** The state of [np.random]: the stream of doubles in [0, 1) that the
    generator will deliver, and how many of them were consumed. *)
Record RandomState : Type := {
  draws : nat → float;
  cursor : nat
}.

(** [np.random.random_sample()] *)
Definition random_sample (g : RandomState) : float * RandomState :=
  (draws g (cursor g), {| draws := draws g; cursor := S (cursor g) |}).

(** [np.random.uniform(lo, hi)]: [lo + (hi - lo) * random_sample()], refused
    with OverflowError when [hi - lo] is not finite. *)
Definition random_uniform (lo hi : float) (g : RandomState)
  : Outcome float * RandomState :=
  let range := PrimFloat.sub hi lo in
  if PrimFloat.is_finite range then
    let '(u, g') := random_sample g in
    (Ret (PrimFloat.add lo (PrimFloat.mul range u)), g')
  else (Raise OverflowError, g).

(** ** Collaborators outside the file *)

(** An obstacle, or a piece of motion: a pair of points. *)
Definition Segment : Type := Config * Config.

Record External : Type := {
  (** [np.arctan2], [np.cos], [np.sin] *)
  arctan2 : float → float → float;
  cos : float → float;
  sin : float → float;
  (** [dubins.path_length(x1, x2, radius)] *)
  path_length : Config → Config → float → float;
  (** [dubins.path_sample(x1, x2, radius, step)]: waypoints and their arc
      lengths *)
  path_sample : Config → Config → float → float → list Config * list float;
  (** [utils.line_line_intersection(motion, line)] *)
  line_line_intersection : Segment → Segment → bool
}.

(** ** The planning problem and its three classes *)

Inductive Class : Type :=
  | RRT_base
  | GeometricRRT
  | DubinsRRT (turning_radius : float).

Record RRT : Type := {
  cls : Class;
  statespace_lo : Config;
  statespace_hi : Config;
  x_init : Config;
  x_goal : Config;
  obstacles : list Segment
}.

(** The literal [1.001]. *)
Definition scale_1_001 : float := 0x1.004189374bc6ap+0%float.

(** [np.pi / 6], the default resolution of [DubinsRRT.is_free_motion]. *)
Definition resolution : float :=
  Eval cbv in PrimFloat.div 0x1.921fb54442d18p+1%float 6%float.

Section Methods.
Context (ext : External).

(** [self.distance(x1, x2)].  The base class has no such attribute.  The
    configurations are arrays of doubles, as the rows of [V] and the samples
    are inside [solve]; arrays of integers, which numpy subtracts with
    wrap-around, are outside this type.  [dubins.path_length] is taken as a
    function that answers; what it raises is not modelled. *)
Definition distance (self : RRT) (x1 x2 : Config) : Outcome float :=
  match cls self with
  | RRT_base => Raise (AttributeError "distance")
  | GeometricRRT => d ← np_sub x1 x2; Ret (np_norm d)
  | DubinsRRT r => Ret (path_length ext x1 x2 r)
  end.

(** [self.find_nearest(V, x)]: [np.apply_along_axis(self.distance, 1, V, x)]
    then [np.argmin]. *)
Definition find_nearest (self : RRT) (V : Matrix) (x : Config) : Outcome Z :=
  match cls self with
  | RRT_base =>
      Raise (NotImplementedError "find_nearest must be overriden by a subclass of RRT")
  | GeometricRRT | DubinsRRT _ =>
      Vx_dist ← mapM (λ row, distance self row x) V;
      np_argmin Vx_dist
  end.

(** [self.steer_towards(x, y, eps)] *)
Definition steer_towards (self : RRT) (x y : Config) (eps : float)
  : Outcome Config :=
  match cls self with
  | RRT_base =>
      Raise (NotImplementedError "steer_towards must be overriden by a subclass of RRT")
  | GeometricRRT =>
      d ← distance self x y;
      if PrimFloat.ltb d eps then Ret y
      else
        y1 ← getitem y 1; x1 ← getitem x 1;
        y0 ← getitem y 0; x0 ← getitem x 0;
        let theta := arctan2 ext (PrimFloat.sub y1 x1) (PrimFloat.sub y0 x0) in
        Ret [PrimFloat.add x0 (PrimFloat.mul eps (cos ext theta));
             PrimFloat.add x1 (PrimFloat.mul eps (sin ext theta))]
  | DubinsRRT r =>
      d ← distance self x y;
      if PrimFloat.ltb d eps then Ret y
      else
        let path := path_sample ext x y (PrimFloat.mul scale_1_001 r) eps in
        getitem (fst path) 1
  end.

(** The polyline [pts[0], ..., pts[len-1]] as its consecutive pairs
    [(pts[i], pts[i+1])], [i] in [range(len(pts) - 1)]. *)
Fixpoint consecutive (pts : list Config) : list (Config * Config) :=
  match pts with
  | p :: ((q :: _) as rest) => (p, q) :: consecutive rest
  | _ => []
  end.

(** [self.is_free_motion(obstacles, x1, x2)].  [dubins.path_sample] and
    [utils.line_line_intersection] are taken as functions that answer, and
    [np.array([x1, x2])] as accepting rows of any lengths; what they raise
    is not modelled, so the [for] loops with their early [return False] are
    the conjunction over all obstacles. *)
Definition is_free_motion (self : RRT) (obs : list Segment) (x1 x2 : Config)
  : Outcome bool :=
  match cls self with
  | RRT_base =>
      Raise (NotImplementedError "is_free_motion must be overriden by a subclass of RRT")
  | GeometricRRT =>
      let motion := (x1, x2) in
      Ret (forallb (λ line, negb (line_line_intersection ext motion line)) obs)
  | DubinsRRT r =>
      let pts :=
        fst (path_sample ext x1 x2 r (PrimFloat.mul r resolution)) ++ [x2] in
      Ret (forallb (λ '(p, q),
             forallb (λ line,
               negb (line_line_intersection ext (take 2 p, take 2 q) line)) obs)
           (consecutive pts))
  end.
End Methods.

(** ** Computations that draw from the global generator *)

Definition Rand (A : Type) : Type := RandomState → Outcome A * RandomState.

Global Instance Rand_ret : MRet Rand := λ A a g, (Ret a, g).
Global Instance Rand_bind : MBind Rand := λ A B f m g,
  match m g with
  | (Ret a, g') => f a g'
  | (Raise e, g') => (Raise e, g')
  | (OutOfFuel, g') => (OutOfFuel, g')
  end.

Definition lift {A : Type} (o : Outcome A) : Rand A := λ g, (o, g).

(** [[np.random.uniform(lo, hi) for lo, hi in bounds]] *)
Fixpoint uniform_each (bounds : list (float * float)) : Rand Config :=
  match bounds with
  | [] => mret []
  | (lo, hi) :: rest =>
      v ← random_uniform lo hi;
      vs ← uniform_each rest;
      mret (v :: vs)
  end.

(** ** The tree and the outputs of the growth loop *)

Record Tree : Type := {
  V : Matrix;
  P : list Z;
  n : Z
}.

Record Result : Type := {
  tree : Tree;
  success : bool;
  solution_path : option (list Config)
}.

Section Solve.
Context (ext : External).

(** Lines 60-67: the preallocated tables, rooted at [x_init]. *)
Definition init_tree (self : RRT) (max_iters : Z) : Outcome Tree :=
  let state_dim := length (x_init self) in
  V0 ← np_zeros max_iters state_dim;
  V1 ← set_row V0 0 (x_init self);
  P0 ← np_minus_ones max_iters;
  Ret {| V := V1; P := P0; n := 1 |}.

(** Lines 80-84: the goal with probability [goal_bias], else a uniform
    sample of the state space. *)
Definition sample (self : RRT) (goal_bias : float) : Rand Config :=
  z ← (λ g, let '(z, g') := random_sample g in (Ret z, g'));
  if PrimFloat.ltb z goal_bias then mret (x_goal self)
  else uniform_each (zip (statespace_lo self) (statespace_hi self)).

(** Lines 80-87: this iteration's candidate [(idx_near, x_near, x_new)]. *)
Definition propose (self : RRT) (eps goal_bias : float) (t : Tree)
  : Rand (Z * Config * Config) :=
  x_rand ← sample self goal_bias;
  lift (idx_near ← find_nearest ext self (slice_to (V t) (n t)) x_rand;
        x_near ← getitem (V t) idx_near;
        x_new ← steer_towards ext self x_near x_rand eps;
        Ret (idx_near, x_near, x_new)).

(** Lines 99-101: the [while] loop.  [path] is [solution_path] in the order
    of its appends. *)
Fixpoint walk (fuel : nat) (Vt : Matrix) (Pt : list Z) (init : Config)
    (idx_cur : Z) (path : list Config) : Outcome (list Config) :=
  match fuel with
  | O => OutOfFuel
  | S fuel' =>
      row ← getitem Vt idx_cur;
      if array_equal row init then Ret path
      else
        p ← getitem Pt idx_cur;
        prow ← getitem Vt p;
        walk fuel' Vt Pt init p (path ++ [prow])
  end.

(** Lines 97-102: the solution path, from the node appended last. *)
Definition reconstruct (fuel : nat) (self : RRT) (t : Tree)
  : Outcome (list Config) :=
  let idx_cur := n t - 1 in
  path ← walk fuel (V t) (P t) (x_init self) idx_cur [x_goal self];
  Ret (reverse path).

(** Lines 90-104: the collision-gated extension.  The second component is
    the solution path when the goal was reached (the [break]). *)
Definition extend (fuel : nat) (self : RRT) (t : Tree)
    (idx_near : Z) (x_near x_new : Config)
  : Outcome (Tree * option (list Config)) :=
  free ← is_free_motion ext self (obstacles self) x_near x_new;
  if free : bool then
    V' ← set_row (V t) (n t) x_new;
    P' ← setitem (P t) (n t) idx_near;
    let t' := {| V := V'; P := P'; n := n t + 1 |} in
    if array_equal x_new (x_goal self) then
      path ← reconstruct fuel self t';
      Ret (t', Some path)
    else Ret (t', None)
  else Ret (t, None).

(** One pass through the body of the [for] loop. *)
Definition iteration (fuel : nat) (self : RRT) (eps goal_bias : float)
    (t : Tree) : Rand (Tree * option (list Config)) :=
  c ← propose self eps goal_bias t;
  let '(idx_near, x_near, x_new) := c in
  lift (extend fuel self t idx_near x_near x_new).

(** [iters] passes of [for k in range(max_iters)], left early on success. *)
Fixpoint loop (iters : nat) (fuel : nat) (self : RRT) (eps goal_bias : float)
    (t : Tree) : Rand Result :=
  match iters with
  | O => mret {| tree := t; success := false; solution_path := None |}
  | S iters' =>
      r ← iteration fuel self eps goal_bias t;
      match r with
      | (t', Some path) =>
          mret {| tree := t'; success := true; solution_path := Some path |}
      | (t', None) => loop iters' fuel self eps goal_bias t'
      end
  end.

(** Lines 56-104: the tree and the intermediate outputs of [solve]. *)
Definition grow (fuel : nat) (self : RRT) (eps : float) (max_iters : Z)
    (goal_bias : float) : Rand Result :=
  t0 ← lift (init_tree self max_iters);
  loop (Z.to_nat max_iters) fuel self eps goal_bias t0.

End Solve.

(** ** Plotting and the public entry point *)

(** The calls made to the plotting collaborators, with their data. *)
Inductive PlotCall : Type :=
  | plt_figure
  | plot_line_segments (segs : list Segment)
  | plot_tree (Vt : Matrix) (Pt : list Z)
  | plot_path (path : list Config)
  | plt_scatter (xs ys : list float)
  | plt_annotate (text : string) (xy : Config)
  | plt_legend.

(** What is global to the process: numpy's generator and the figures. *)
Record World : Type := {
  np_random : RandomState;
  plt_calls : list PlotCall
}.

(** What a caller can receive from a call: Python's [None], or the triple
    [(success, (nodes, parents), path)] of the interface description. *)
Inductive PyValue : Type :=
  | PyNone
  | PyTriple (ok : bool) (nodes : Matrix) (parents : list Z)
             (path : option (list Config)).

(** Plotting calls in sequence: the calls made so far and how it went on. *)
Definition Plot (A : Type) : Type := list PlotCall * Outcome A.

Global Instance Plot_ret : MRet Plot := λ A a, ([], Ret a).
Global Instance Plot_bind : MBind Plot := λ A B f m,
  match m with
  | (cs, Ret a) => let '(cs', o) := f a in (cs ++ cs', o)
  | (cs, Raise e) => (cs, Raise e)
  | (cs, OutOfFuel) => (cs, OutOfFuel)
  end.

Definition call (c : PlotCall) : Plot () := ([c], Ret ()).
Definition eval {A : Type} (o : Outcome A) : Plot A := ([], o).

(** [self.plot_tree(V, P, ...)]; the base class has no such attribute. *)
Definition do_plot_tree (self : RRT) (Vt : Matrix) (Pt : list Z) : Plot () :=
  match cls self with
  | RRT_base => eval (Raise (AttributeError "plot_tree"))
  | _ => call (plot_tree Vt Pt)
  end.

(** [self.plot_path(solution_path, ...)] *)
Definition do_plot_path (self : RRT) (path : list Config) : Plot () :=
  match cls self with
  | RRT_base => eval (Raise (AttributeError "plot_path"))
  | _ => call (plot_path path)
  end.

(** [M[:k, j]] *)
Definition column (M : Matrix) (k j : Z) : Outcome (list float) :=
  mapM (λ row, getitem row j) (slice_to M k).

(** Lines 106-115. *)
Definition render (self : RRT) (r : Result) : Plot () :=
  let t := tree r in
  call plt_figure;;
  call (plot_line_segments (obstacles self));;
  do_plot_tree self (V t) (P t);;
  (if success r then
     match solution_path r with
     | Some path => do_plot_path self path
     | None => eval (Raise (UnboundLocalError "solution_path"))
     end
   else mret ());;
  xs ← eval (column (V t) (n t) 0);
  ys ← eval (column (V t) (n t) 1);
  call (plt_scatter xs ys);;
  i0 ← eval (getitem (x_init self) 0);
  g0 ← eval (getitem (x_goal self) 0);
  i1 ← eval (getitem (x_init self) 1);
  g1 ← eval (getitem (x_goal self) 1);
  call (plt_scatter [i0; g0] [i1; g1]);;
  a ← eval (np_add (take 2 (x_init self)) [0x1.999999999999ap-3%float; 0%float]);
  call (plt_annotate "$x_{init}$" a);;
  b ← eval (np_add (take 2 (x_goal self)) [0x1.999999999999ap-3%float; 0%float]);
  call (plt_annotate "$x_{goal}$" b);;
  call plt_legend.

(** [self.solve(eps, max_iters, goal_bias)]: grows the tree, plots, and falls
    off the end of the function. *)
Definition solve (ext : External) (fuel : nat) (self : RRT) (eps : float)
    (max_iters : Z) (goal_bias : float) (w : World) : Outcome PyValue * World :=
  match grow ext fuel self eps max_iters goal_bias (np_random w) with
  | (Ret r, g') =>
      let '(cs, o) := render self r in
      (o ≫= (λ _, Ret PyNone),
       {| np_random := g'; plt_calls := plt_calls w ++ cs |})
  | (Raise e, g') => (Raise e, {| np_random := g'; plt_calls := plt_calls w |})
  | (OutOfFuel, g') => (OutOfFuel, {| np_random := g'; plt_calls := plt_calls w |})
  end.

(** ** Scenarios *)

(** Collaborators for scenarios that never reach them. *)
Definition ext0 : External := {|
  arctan2 := λ _ _, 0%float;
  cos := λ _, 0%float;
  sin := λ _, 0%float;
  path_length := λ _ _ _, 0%float;
  path_sample := λ _ _ _ _, ([], []);
  line_line_intersection := λ _ _, false
|}.

(** A generator about to deliver [ds], then [0.5] for ever. *)
Definition stream (ds : list float) : RandomState :=
  {| draws := λ i, nth i ds 0.5%float; cursor := 0%nat |}.

Definition world0 (ds : list float) : World :=
  {| np_random := stream ds; plt_calls := [] |}.

(** Scenario A: [GeometricRRT([-5,-5], [5,5], [0,0], [1,1], [])]. *)
Definition scenario_A : RRT := {|
  cls := GeometricRRT;
  statespace_lo := [(-5)%float; (-5)%float];
  statespace_hi := [5%float; 5%float];
  x_init := [0%float; 0%float];
  x_goal := [1%float; 1%float];
  obstacles := []
|}.

(** The outputs of the growth loop in Scenario A. *)
Definition scenario_A_result : Result := {|
  tree := {| V := [0%float; 0%float] :: [1%float; 1%float]
                  :: replicate 8 [0%float; 0%float];
             P := -1 :: 0 :: replicate 8 (-1);
             n := 2 |};
  success := true;
  solution_path := Some [[0%float; 0%float]; [1%float; 1%float]]
|}.

(** Scenario B: as A, with a wall across the diagonal, and an intersection
    test that reports the crossing. *)
Definition scenario_B : RRT := {|
  cls := GeometricRRT;
  statespace_lo := [(-5)%float; (-5)%float];
  statespace_hi := [5%float; 5%float];
  x_init := [0%float; 0%float];
  x_goal := [1%float; 1%float];
  obstacles := [([0%float; 1%float], [1%float; 0%float])]
|}.

Definition ext_crossing : External := {|
  arctan2 := λ _ _, 0%float;
  cos := λ _, 0%float;
  sin := λ _, 0%float;
  path_length := λ _ _ _, 0%float;
  path_sample := λ _ _ _ _, ([], []);
  line_line_intersection := λ _ _, true
|}.

(** The problem of the abstract class alone. *)
Definition abstract_problem : RRT := {|
  cls := RRT_base;
  statespace_lo := [(-5)%float; (-5)%float];
  statespace_hi := [5%float; 5%float];
  x_init := [0%float; 0%float];
  x_goal := [1%float; 1%float];
  obstacles := []
|}.

(** A problem whose goal is its start. *)
Definition scenario_same : RRT := {|
  cls := GeometricRRT;
  statespace_lo := [(-5)%float; (-5)%float];
  statespace_hi := [5%float; 5%float];
  x_init := [1%float; 1%float];
  x_goal := [1%float; 1%float];
  obstacles := []
|}.

(** ** Parent chains *)

(** [chain Vt Pt init i visited j]: following the parent links from node
    [i], node [j] is the first whose row equals [init] by value; [visited]
    holds the rows of the nodes passed after [i], up to and including
    [j]. *)
Inductive chain (Vt : Matrix) (Pt : list Z) (init : Config)
  : Z → list Config → Z → Prop :=
  | chain_stop (i : Z) (row : Config) :
      getitem Vt i = Ret row → array_equal row init = true →
      chain Vt Pt init i [] i
  | chain_step (i p j : Z) (row prow : Config) (visited : list Config) :
      getitem Vt i = Ret row → array_equal row init = false →
      getitem Pt i = Ret p → getitem Vt p = Ret prow →
      chain Vt Pt init p visited j →
      chain Vt Pt init i (prow :: visited) j.

(** The node reached from [i] by [k] parent links, as the loop reads them:
    [P[...P[P[i]]...]]. *)
Fixpoint ancestor (Pt : list Z) (k : nat) (i : Z) : Outcome Z :=
  match k with
  | O => Ret i
  | S k' => p ← getitem Pt i; ancestor Pt k' p
  end.

(** ** Well-formed trees *)

(** The parent table: the root has the sentinel, every other node of the
    tree has a parent that was added before it. *)
Definition parents_ok (t : Tree) : Prop :=
  P t !! 0%nat = Some (-1)
  ∧ ∀ i, 0 < i < n t → ∃ p, P t !! Z.to_nat i = Some p ∧ 0 ≤ p < i.

(** The tree fits its tables. *)
Definition sizes_ok (t : Tree) : Prop :=
  1 ≤ n t ≤ len (P t) ∧ len (V t) = len (P t).

Definition tree_wf (t : Tree) : Prop := sizes_ok t ∧ parents_ok t.

(** ** The order of the doubles *)

(** The place of a double in the order of the doubles, as a triple compared
    lexicographically: class (infinities, negative, zero, positive), then
    exponent, then mantissa.  A NaN has no place. *)
Definition sf_key (f : SpecFloat.spec_float) : option (Z * Z * Z) :=
  match f with
  | SpecFloat.S754_nan => None
  | SpecFloat.S754_zero _ => Some (0, 0, 0)
  | SpecFloat.S754_infinity true => Some (-2, 0, 0)
  | SpecFloat.S754_infinity false => Some (2, 0, 0)
  | SpecFloat.S754_finite false m e => Some (1, e, Z.pos m)
  | SpecFloat.S754_finite true m e => Some (-1, - e, - Z.pos m)
  end.

Definition fkey (x : float) : option (Z * Z * Z) := sf_key (FloatOps.Prim2SF x).

Definition key_le (a b : Z * Z * Z) : Prop :=
  a.1.1 < b.1.1
  ∨ (a.1.1 = b.1.1 ∧ (a.1.2 < b.1.2 ∨ (a.1.2 = b.1.2 ∧ a.2 ≤ b.2))).

Definition key_lt (a b : Z * Z * Z) : Prop :=
  a.1.1 < b.1.1
  ∨ (a.1.1 = b.1.1 ∧ (a.1.2 < b.1.2 ∨ (a.1.2 = b.1.2 ∧ a.2 < b.2))).

(** ** What a run keeps true of its tree *)

(** [row] is what [M[i,:] = x] leaves in a row of [width] entries: [x]
    itself, or the single entry of [x] repeated. *)
Definition stored_as (x : Config) (width : nat) (row : Config) : Prop :=
  (row = x ∧ length x = width) ∨ ∃ v, x = [v] ∧ row = replicate width v.

(** The root is [x_init]. *)
Definition rooted (self : RRT) (t : Tree) : Prop :=
  V t !! 0%nat = Some (x_init self).

(** The tables have [m] rows; the rows of [V] have the dimension of
    [x_init]. *)
Definition shaped (self : RRT) (m : Z) (t : Tree) : Prop :=
  len (V t) = m ∧ len (P t) = m
  ∧ Forall (λ row : Config, length row = length (x_init self)) (V t).

(** The slots past the tree are as they were allocated. *)
Definition slots_fresh (self : RRT) (t : Tree) : Prop :=
  ∀ i, n t ≤ Z.of_nat i < len (P t) →
    P t !! i = Some (-1)
    ∧ V t !! i = Some (replicate (length (x_init self)) 0%float).

(** Every node but the root was steered to from its parent along a motion
    that [is_free_motion] accepted. *)
Definition edges_free (ext : External) (self : RRT) (t : Tree) : Prop :=
  ∀ i, (0 < i)%nat → Z.of_nat i < n t →
    ∃ p x_near x_new row,
      P t !! i = Some p ∧ 0 ≤ p < Z.of_nat i
      ∧ V t !! Z.to_nat p = Some x_near
      ∧ is_free_motion ext self (obstacles self) x_near x_new = Ret true
      ∧ V t !! i = Some row
      ∧ stored_as x_new (length (x_init self)) row.

(** All of it together, for tables of [m] rows. *)
Definition run_inv (ext : External) (self : RRT) (m : Z) (t : Tree) : Prop :=
  rooted self t ∧ shaped self m t ∧ slots_fresh self t ∧ edges_free ext self t.

(** ** The edges that [plot_tree] draws *)

(** [[(V[P[i],:], V[i,:]) for i in ixs if P[i] >= 0]] *)
Fixpoint tree_edges_from (Vt : Matrix) (Pt : list Z) (ixs : list nat)
  : Outcome (list Segment) :=
  match ixs with
  | [] => Ret []
  | i :: rest =>
      p ← getitem Pt (Z.of_nat i);
      if 0 <=? p then
        a ← getitem Vt p;
        b ← getitem Vt (Z.of_nat i);
        edges ← tree_edges_from Vt Pt rest;
        Ret ((a, b) :: edges)
      else tree_edges_from Vt Pt rest
  end.

(** The pairs of rows that [plot_tree(V, P)] joins, [i] ranging over
    [range(V.shape[0])]. *)
Definition tree_edges (Vt : Matrix) (Pt : list Z) : Outcome (list Segment) :=
  tree_edges_from Vt Pt (seq 0 (length Vt)).

(** [np.pi / 24], the default resolution of the plots of DubinsRRT. *)
Definition plot_resolution : float :=
  Eval cbv in PrimFloat.div 0x1.921fb54442d18p+1%float 24%float.

(** [self.plot_tree(V, P)]: the list handed to [plot_line_segments].  For
    GeometricRRT the edges themselves; for DubinsRRT each edge is replaced
    by the polyline of its sampled curve, closed by the child node. *)
Definition plot_tree_segments (ext : External) (self : RRT) (Vt : Matrix)
    (Pt : list Z) : Outcome (list Segment) :=
  match cls self with
  | RRT_base => Raise (AttributeError "plot_tree")
  | GeometricRRT => tree_edges Vt Pt
  | DubinsRRT r =>
      edges ← tree_edges Vt Pt;
      Ret (concat (map (λ '(a, b),
             consecutive
               (fst (path_sample ext a b r (PrimFloat.mul r plot_resolution))
                ++ [b]))
           edges))
  end.

(** ** Draws from the generator *)

(** [g'] is [g] after between [lo] and [hi] draws. *)
Definition advanced (lo hi : nat) (g g' : RandomState) : Prop :=
  draws g' = draws g ∧ (cursor g + lo ≤ cursor g' ≤ cursor g + hi)%nat.

(** The number of draws of a uniform sample of the state space: the length
    of [zip(statespace_lo, statespace_hi)]. *)
Definition sample_dim (self : RRT) : nat :=
  length (zip (statespace_lo self) (statespace_hi self)).

(** The next [k] doubles that [g1] and [g2] deliver are the same, whatever
    the two generators delivered before and deliver afterwards. *)
Definition same_stream (k : nat) (g1 g2 : RandomState) : Prop :=
  ∀ i, (i < k)%nat →
    draws g1 (cursor g1 + i)%nat = draws g2 (cursor g2 + i)%nat.

(** [m] uses the generator through the next [k] doubles only: started on two
    generators that agree on them, it ends with the same outcome after the
    same number of draws, at most [k]. *)
Definition reads_only {A : Type} (k : nat) (m : Rand A) : Prop :=
  ∀ g1 g2, same_stream k g1 g2 →
    fst (m g1) = fst (m g2)
    ∧ ∃ j, (j ≤ k)%nat
        ∧ advanced j j g1 (snd (m g1)) ∧ advanced j j g2 (snd (m g2)).

(** A generator that delivered two doubles already and is about to deliver
    [0.25], then [0.5] for ever. *)
Definition stream_used : RandomState :=
  {| draws := λ i, nth i [0.875%float; 0.875%float; 0.25%float] 0.5%float;
     cursor := 2%nat |}.




(** * Properties *)

(** Membership in, and absence from, an explicit list of calls. *)
Ltac in_calls :=
  repeat first [apply list_elem_of_here | apply list_elem_of_further].
Ltac not_in_calls :=
  let p := fresh "p" in
  let Hp := fresh "Hp" in
  intros p Hp;
  repeat (apply elem_of_cons in Hp as [Hp|Hp]; [discriminate|]);
  by apply elem_of_nil in Hp.

(** ** Sequences and arrays *)

Lemma norm_index_Ret {A : Type} (l : list A) (i : Z) (j : nat) :
  norm_index l i = Ret j →
  - len l ≤ i < len l ∧ j = Z.to_nat (if i <? 0 then i + len l else i)
  ∧ (j < length l)%nat.
Proof.
  unfold norm_index, len.
  destruct (i <? - Z.of_nat (length l)) eqn:Hlo; simpl; [discriminate|].
  destruct (Z.of_nat (length l) <=? i) eqn:Hhi; simpl; [discriminate|].
  intros [= <-]. destruct (i <? 0) eqn:Hneg; lia.
Qed.

Lemma norm_index_nonneg {A : Type} (l : list A) (i : Z) :
  0 ≤ i < len l → norm_index l i = Ret (Z.to_nat i).
Proof.
  unfold norm_index, len. intros Hi.
  destruct (i <? - Z.of_nat (length l)) eqn:Hlo; [lia|].
  destruct (Z.of_nat (length l) <=? i) eqn:Hhi; [lia|]. simpl.
  destruct (i <? 0) eqn:Hneg; [lia|done].
Qed.

Lemma getitem_nonneg {A : Type} (l : list A) (i : Z) (a : A) :
  0 ≤ i → l !! Z.to_nat i = Some a → getitem l i = Ret a.
Proof.
  intros Hi Hl. unfold getitem.
  rewrite norm_index_nonneg; [simpl; by rewrite Hl|].
  apply lookup_lt_Some in Hl. unfold len. lia.
Qed.

Lemma setitem_Ret {A : Type} (l l' : list A) (i : Z) (a : A) :
  0 ≤ i → setitem l i a = Ret l' →
  i < len l ∧ l' = <[Z.to_nat i := a]> l.
Proof.
  intros Hi. unfold setitem.
  destruct (norm_index l i) as [j| |] eqn:Hj; simpl; try discriminate.
  apply norm_index_Ret in Hj as (Hr & -> & _). intros [= <-].
  destruct (i <? 0) eqn:Hneg; [lia|]. split; [lia|done].
Qed.

Lemma set_row_Ret (M M' : Matrix) (i : Z) (x : Config) :
  0 ≤ i → set_row M i x = Ret M' →
  i < len M ∧ ∃ row, M' = <[Z.to_nat i := row]> M.
Proof.
  intros Hi. unfold set_row.
  destruct (norm_index M i) as [j| |] eqn:Hj; simpl; try discriminate.
  apply norm_index_Ret in Hj as (Hr & -> & _).
  destruct (i <? 0) eqn:Hneg; [lia|].
  destruct (M !! Z.to_nat i) as [row|]; [|discriminate].
  destruct (Nat.eqb (length x) (length row)).
  - intros [= <-]. split; [lia|eauto].
  - destruct x as [|v [|]]; try discriminate.
    intros [= <-]. split; [lia|eauto].
Qed.

Lemma mapM_Ret_length {A B : Type} (f : A → Outcome B) (l : list A) (k : list B) :
  mapM f l = Ret k → length k = length l.
Proof.
  revert k. induction l as [|a l IH]; intros k; simpl.
  - by intros [= <-].
  - destruct (f a) as [b| |]; simpl; try discriminate.
    destruct (mapM f l) as [k'| |]; simpl; try discriminate.
    intros [= <-]. simpl. f_equal. by apply IH.
Qed.

Lemma argmin_from_range (d : list float) (mp : float) (idx i : Z) :
  0 ≤ idx < i → 0 ≤ argmin_from mp idx i d < i + len d.
Proof.
  revert mp idx i. unfold len.
  induction d as [|x d IH]; intros mp idx i Hi; simpl.
  - lia.
  - destruct (is_nan mp); [lia|].
    destruct (negb (mp <=? x)%float).
    + specialize (IH x i (i + 1)). lia.
    + specialize (IH mp idx (i + 1)). lia.
Qed.

Lemma np_argmin_range (d : list float) (i : Z) :
  np_argmin d = Ret i → 0 ≤ i < len d.
Proof.
  destruct d as [|x d]; simpl; [discriminate|]. intros [= <-].
  pose proof (argmin_from_range d x 0 1). unfold len in *. simpl. lia.
Qed.

Lemma slice_to_len {A : Type} (l : list A) (k : Z) :
  0 ≤ k ≤ len l → len (slice_to l k) = k.
Proof.
  unfold slice_to, len. intros Hk.
  destruct (k <? 0) eqn:Hneg; [lia|]. rewrite length_take. lia.
Qed.

(** Both concrete classes answer [find_nearest] with an index of the table
    they were given; the base class answers nothing. *)
Lemma find_nearest_range (ext : External) (self : RRT) (Vt : Matrix)
    (x : Config) (i : Z) :
  find_nearest ext self Vt x = Ret i → 0 ≤ i < len Vt.
Proof.
  unfold find_nearest.
  assert (Hgen : (mapM (λ row, distance ext self row x) Vt ≫= np_argmin) = Ret i
                 → 0 ≤ i < len Vt).
  { destruct (mapM _ Vt) as [ds| |] eqn:Hds; simpl; try discriminate.
    intros Hi%np_argmin_range. apply mapM_Ret_length in Hds.
    unfold len in *. lia. }
  destruct (cls self); [discriminate|exact Hgen|exact Hgen].
Qed.

(** ** Inversion of the monadic steps *)

Lemma Outcome_bind_Ret {A B : Type} (m : Outcome A) (f : A → Outcome B) (b : B) :
  m ≫= f = Ret b → ∃ a, m = Ret a ∧ f a = Ret b.
Proof. destruct m as [a| |]; simpl; [eauto|discriminate|discriminate]. Qed.

Lemma Rand_bind_Ret {A B : Type} (m : Rand A) (f : A → Rand B)
    (g g' : RandomState) (b : B) :
  (m ≫= f) g = (Ret b, g') → ∃ a g1, m g = (Ret a, g1) ∧ f a g1 = (Ret b, g').
Proof.
  unfold mbind, Rand_bind. destruct (m g) as [[a| |] g1]; [eauto|discriminate..].
Qed.

Lemma lift_Ret {A : Type} (o : Outcome A) (g g' : RandomState) (a : A) :
  lift o g = (Ret a, g') → o = Ret a ∧ g' = g.
Proof. unfold lift. by intros [= -> ->]. Qed.

Section Steps.
Context (ext : External).

Lemma propose_Ret (self : RRT) (eps goal_bias : float) (t : Tree)
    (g g' : RandomState) (idx_near : Z) (x_near x_new : Config) :
  propose ext self eps goal_bias t g = (Ret (idx_near, x_near, x_new), g') →
  ∃ x_rand,
    sample self goal_bias g = (Ret x_rand, g')
    ∧ find_nearest ext self (slice_to (V t) (n t)) x_rand = Ret idx_near
    ∧ getitem (V t) idx_near = Ret x_near
    ∧ steer_towards ext self x_near x_rand eps = Ret x_new.
Proof.
  unfold propose. intros (x_rand & g1 & Hs & Hrest)%Rand_bind_Ret.
  apply lift_Ret in Hrest as [Hrest ->].
  apply Outcome_bind_Ret in Hrest as (i & Hi & Hrest).
  apply Outcome_bind_Ret in Hrest as (xn & Hxn & Hrest).
  apply Outcome_bind_Ret in Hrest as (xw & Hxw & [= -> -> ->]).
  eauto.
Qed.

Lemma iteration_Ret (fuel : nat) (self : RRT) (eps goal_bias : float)
    (t t' : Tree) (g g' : RandomState) (found : option (list Config)) :
  iteration ext fuel self eps goal_bias t g = (Ret (t', found), g') →
  ∃ idx_near x_near x_new,
    propose ext self eps goal_bias t g = (Ret (idx_near, x_near, x_new), g')
    ∧ extend ext fuel self t idx_near x_near x_new = Ret (t', found).
Proof.
  unfold iteration. intros ([[i xn] xw] & g1 & Hp & Hrest)%Rand_bind_Ret.
  apply lift_Ret in Hrest as [He ->]. eauto.
Qed.

(** What [extend] can have done when it returns. *)
Lemma extend_Ret (fuel : nat) (self : RRT) (t t' : Tree) (idx_near : Z)
    (x_near x_new : Config) (found : option (list Config)) :
  extend ext fuel self t idx_near x_near x_new = Ret (t', found) →
  (is_free_motion ext self (obstacles self) x_near x_new = Ret false
   ∧ t' = t ∧ found = None)
  ∨ (is_free_motion ext self (obstacles self) x_near x_new = Ret true
     ∧ ∃ V' P',
         set_row (V t) (n t) x_new = Ret V'
         ∧ setitem (P t) (n t) idx_near = Ret P'
         ∧ t' = {| V := V'; P := P'; n := n t + 1 |}
         ∧ if array_equal x_new (x_goal self)
           then ∃ path, reconstruct fuel self t' = Ret path ∧ found = Some path
           else found = None).
Proof.
  unfold extend. intros (free & Hfree & Hrest)%Outcome_bind_Ret.
  destruct free.
  - right. split; [done|].
    apply Outcome_bind_Ret in Hrest as (V' & HV & Hrest).
    apply Outcome_bind_Ret in Hrest as (P' & HP & Hrest).
    exists V', P'. split_and!; [done|done| |].
    + destruct (array_equal x_new (x_goal self)).
      * apply Outcome_bind_Ret in Hrest as (path & _ & [= <- _]). done.
      * by injection Hrest as <- _.
    + destruct (array_equal x_new (x_goal self)).
      * apply Outcome_bind_Ret in Hrest as (path & Hpath & [= <- <-]). eauto.
      * by injection Hrest as _ <-.
  - left. by injection Hrest as <- <-.
Qed.

End Steps.

(** ** The tree stays well-formed *)

Section Invariant.
Context (ext : External).

Lemma init_tree_Ret (self : RRT) (max_iters : Z) (t0 : Tree) :
  init_tree self max_iters = Ret t0 →
  1 ≤ max_iters ∧ n t0 = 1
  ∧ P t0 = replicate (Z.to_nat max_iters) (-1)
  ∧ len (V t0) = max_iters.
Proof.
  unfold init_tree, np_zeros, np_minus_ones.
  destruct (max_iters <? 0) eqn:Hneg; simpl; [discriminate|].
  intros (V1 & HV & [= <-])%Outcome_bind_Ret.
  apply set_row_Ret in HV as (Hlt & row & ->); [|lia]. cbn [V P n].
  unfold len in *. rewrite length_replicate in Hlt.
  rewrite length_insert, length_replicate.
  split_and!; [lia|done|done|lia].
Qed.

Lemma init_tree_wf (self : RRT) (max_iters : Z) (t0 : Tree) :
  init_tree self max_iters = Ret t0 → tree_wf t0.
Proof.
  intros (Hm & Hn & HP & HV)%init_tree_Ret.
  unfold tree_wf, sizes_ok, parents_ok. rewrite Hn, HV, HP.
  unfold len. rewrite length_replicate. split_and!; try lia.
  apply lookup_replicate_2. lia.
Qed.

Lemma extend_wf (fuel : nat) (self : RRT) (t t' : Tree) (idx_near : Z)
    (x_near x_new : Config) (found : option (list Config)) :
  tree_wf t → 0 ≤ idx_near < n t →
  extend ext fuel self t idx_near x_near x_new = Ret (t', found) →
  tree_wf t'.
Proof.
  intros [[Hn HVP] [Hroot Hpar]] Hidx
    [(_ & -> & _)|(_ & V' & P' & HV & HP & -> & _)]%extend_Ret; [done|].
  apply set_row_Ret in HV as (HnV & row & ->); [|lia].
  apply setitem_Ret in HP as (HnP & ->); [|lia].
  unfold tree_wf, sizes_ok, parents_ok, len in *. cbn [V P n].
  rewrite !length_insert. split_and!; try lia.
  - rewrite list_lookup_insert_ne; [done|lia].
  - intros i Hi. destruct (decide (i = n t)) as [->|Hne].
    + exists idx_near. rewrite list_lookup_insert_eq; [split; [done|lia]|lia].
    + rewrite list_lookup_insert_ne; [apply Hpar; lia|lia].
Qed.

Lemma iteration_wf (fuel : nat) (self : RRT) (eps goal_bias : float)
    (t t' : Tree) (g g' : RandomState) (found : option (list Config)) :
  tree_wf t →
  iteration ext fuel self eps goal_bias t g = (Ret (t', found), g') →
  tree_wf t'.
Proof.
  intros Hwf (idx & x_near & x_new & Hp & He)%iteration_Ret.
  apply propose_Ret in Hp as (x_rand & _ & Hidx%find_nearest_range & _).
  eapply extend_wf; [done| |done].
  destruct Hwf as [[Hn HVP] _]. rewrite slice_to_len in Hidx; lia.
Qed.

Lemma loop_wf (iters fuel : nat) (self : RRT) (eps goal_bias : float)
    (t : Tree) (g g' : RandomState) (r : Result) :
  tree_wf t →
  loop ext iters fuel self eps goal_bias t g = (Ret r, g') →
  tree_wf (tree r).
Proof.
  revert t g. induction iters as [|iters IH]; intros t g Hwf; simpl.
  - by intros [= <- _].
  - intros ([t' found] & g1 & Hit & Hrest)%Rand_bind_Ret.
    apply iteration_wf in Hit; [|done].
    destruct found as [path|].
    + by injection Hrest as <- _.
    + by eapply IH.
Qed.

(** The tables keep the capacity they were allocated with. *)
Lemma loop_capacity (iters fuel : nat) (self : RRT) (eps goal_bias : float)
    (t : Tree) (g g' : RandomState) (r : Result) :
  tree_wf t →
  loop ext iters fuel self eps goal_bias t g = (Ret r, g') →
  len (P (tree r)) = len (P t).
Proof.
  revert t g. induction iters as [|iters IH]; intros t g Hwf; simpl.
  - by intros [= <- _].
  - intros ([t' found] & g1 & Hit & Hrest)%Rand_bind_Ret.
    assert (tree_wf t') as Hwf' by (by eapply iteration_wf).
    assert (len (P t') = len (P t)) as Hlen.
    { apply iteration_Ret in Hit as (idx & x_near & x_new & _ & He).
      apply extend_Ret in He
        as [(_ & -> & _)|(_ & V' & P' & _ & HP & -> & _)]; [done|].
      destruct Hwf as [[Hn _] _].
      apply setitem_Ret in HP as (_ & ->); [|lia].
      cbn [P]. unfold len. by rewrite length_insert. }
    destruct found as [path|].
    + injection Hrest as <- _. done.
    + rewrite <- Hlen. by eapply IH.
Qed.

(** The size of the tree never exceeds [max_iters]. *)
Lemma grow_size_within_capacity (fuel : nat) (self : RRT) (eps : float)
    (max_iters : Z) (goal_bias : float) (g g' : RandomState) (r : Result) :
  grow ext fuel self eps max_iters goal_bias g = (Ret r, g') →
  1 ≤ n (tree r) ≤ max_iters
  ∧ len (V (tree r)) = max_iters ∧ len (P (tree r)) = max_iters.
Proof.
  unfold grow.
  intros (t0 & g1 & [Hinit ->]%lift_Ret & Hloop)%Rand_bind_Ret.
  pose proof (init_tree_wf _ _ _ Hinit) as Hwf0.
  pose proof (loop_wf _ _ _ _ _ _ _ _ _ Hwf0 Hloop) as [[Hn HVP] _].
  pose proof (loop_capacity _ _ _ _ _ _ _ _ _ Hwf0 Hloop) as Hcap.
  apply init_tree_Ret in Hinit as (_ & _ & HP0 & _).
  rewrite HP0 in Hcap. unfold len in Hcap at 2.
  rewrite length_replicate in Hcap. lia.
Qed.

End Invariant.

(** C3: the parent table of every tree of a run has [P[0] = -1] and
    [0 ≤ P[i] < i] for [0 < i < n] (and the tree fits its tables): this holds
    of the initial tree, is preserved by every iteration of the growth loop,
    and so holds after any number of iterations and of the tree [solve]
    ends with. *)
Theorem parent_table_invariant (ext : External) (fuel : nat) (self : RRT)
    (eps : float) (max_iters : Z) (goal_bias : float) :
  (∀ t0, init_tree self max_iters = Ret t0 → tree_wf t0)
  ∧ (∀ t g t' found g',
       tree_wf t →
       iteration ext fuel self eps goal_bias t g = (Ret (t', found), g') →
       tree_wf t')
  ∧ (∀ iters t0 g r g',
       init_tree self max_iters = Ret t0 →
       loop ext iters fuel self eps goal_bias t0 g = (Ret r, g') →
       tree_wf (tree r))
  ∧ (∀ g r g',
       grow ext fuel self eps max_iters goal_bias g = (Ret r, g') →
       tree_wf (tree r)).
Proof.
  split_and!.
  - intros t0. apply init_tree_wf.
  - intros t g t' found g'. apply iteration_wf.
  - intros iters t0 g r g' Hinit%init_tree_wf. by apply loop_wf.
  - intros g r g'. unfold grow.
    intros (t0 & g1 & [Hinit%init_tree_wf ->]%lift_Ret & Hloop)%Rand_bind_Ret.
    by eapply loop_wf.
Qed.

Lemma parent_table_invariant_witness :
  ∃ r g',
    grow ext0 2 scenario_A 2%float 10 1%float (stream [0.25%float]) = (Ret r, g')
    ∧ n (tree r) = 2 ∧ tree_wf (tree r).
Proof.
  eexists _, _. split; [vm_compute; reflexivity|]. split; [reflexivity|].
  eapply (proj2 (proj2 (proj2
    (parent_table_invariant ext0 2 scenario_A 2%float 10 1%float)))
    (stream [0.25%float])).
  vm_compute. reflexivity.
Defined.

(** C4: when [is_free_motion] answers false for the candidate of an
    iteration, the iteration returns the tree [(V, P, n)] it started from. *)
Theorem rejected_candidate_leaves_tree (ext : External) (fuel : nat)
    (self : RRT) (eps goal_bias : float) (t : Tree) (g g' : RandomState)
    (idx_near : Z) (x_near x_new : Config) :
  propose ext self eps goal_bias t g = (Ret (idx_near, x_near, x_new), g') →
  is_free_motion ext self (obstacles self) x_near x_new = Ret false →
  iteration ext fuel self eps goal_bias t g = (Ret (t, None), g').
Proof.
  intros Hp Hfree. unfold iteration, mbind, Rand_bind. rewrite Hp.
  unfold lift, extend. by rewrite Hfree.
Qed.

Lemma rejected_candidate_leaves_tree_witness :
  let t := {| V := [[0%float; 0%float]; [0%float; 0%float]];
              P := [-1; -1]; n := 1 |} in
  let g := stream [0.25%float] in
  init_tree scenario_B 2 = Ret t
  ∧ iteration ext_crossing 2 scenario_B 2%float 1%float t g
    = (Ret (t, None), snd (random_sample g)).
Proof.
  intros t g. split; [reflexivity|].
  apply (rejected_candidate_leaves_tree ext_crossing 2 scenario_B 2%float
           1%float t g (snd (random_sample g)) 0
           [0%float; 0%float] [1%float; 1%float]).
  - vm_compute. reflexivity.
  - vm_compute. reflexivity.
Defined.

(** ** Steering *)

(** C6: for GeometricRRT and for DubinsRRT, when [distance(x, y) < eps],
    [steer_towards(x, y, eps)] is [y] itself; in particular at distance zero
    with [eps > 0], whatever the trigonometric functions and the curve
    library would answer: they are not consulted. *)
Theorem steer_within_eps_returns_target (ext : External) (self : RRT) :
  (cls self = GeometricRRT ∨ ∃ r, cls self = DubinsRRT r) →
  (∀ x y eps d,
     distance ext self x y = Ret d → PrimFloat.ltb d eps = true →
     steer_towards ext self x y eps = Ret y)
  ∧ (∀ x y eps,
       distance ext self x y = Ret 0%float → PrimFloat.ltb 0 eps = true →
       steer_towards ext self x y eps = Ret y).
Proof.
  intros Hcls.
  assert (Hgen : ∀ x y eps d,
             distance ext self x y = Ret d → PrimFloat.ltb d eps = true →
             steer_towards ext self x y eps = Ret y).
  { intros x y eps d Hd Hlt. unfold steer_towards.
    destruct Hcls as [Hc|[r Hc]]; rewrite Hc.
    - rewrite Hd. simpl. by rewrite Hlt.
    - rewrite Hd. simpl. by rewrite Hlt. }
  split; [exact Hgen|]. intros x y eps. apply Hgen.
Qed.

Lemma steer_within_eps_returns_target_witness :
  distance ext0 scenario_A [1%float; 1%float] [1%float; 1%float] = Ret 0%float
  ∧ steer_towards ext0 scenario_A [1%float; 1%float] [1%float; 1%float] 2%float
    = Ret [1%float; 1%float].
Proof.
  split; [reflexivity|].
  apply (proj2 (steer_within_eps_returns_target ext0 scenario_A
                  (or_introl eq_refl))); reflexivity.
Defined.

(** ** The abstract class *)

(** C7 (as the code has it): on the abstract class, [find_nearest],
    [steer_towards] and [is_free_motion] raise NotImplementedError;
    [distance] is not an attribute of the class at all, and the call fails
    with AttributeError. *)
Theorem base_capabilities_raise (ext : External) (self : RRT) :
  cls self = RRT_base →
  (∀ Vt x, ∃ msg, find_nearest ext self Vt x = Raise (NotImplementedError msg))
  ∧ (∀ x y eps, ∃ msg,
       steer_towards ext self x y eps = Raise (NotImplementedError msg))
  ∧ (∀ obs x1 x2, ∃ msg,
       is_free_motion ext self obs x1 x2 = Raise (NotImplementedError msg))
  ∧ (∀ x1 x2, distance ext self x1 x2 = Raise (AttributeError "distance")).
Proof.
  intros Hcls. unfold find_nearest, steer_towards, is_free_motion, distance.
  rewrite Hcls. split_and!; eauto.
Qed.

Lemma base_capabilities_raise_witness :
  cls abstract_problem = RRT_base
  ∧ distance ext0 abstract_problem [0%float] [1%float]
    = Raise (AttributeError "distance").
Proof.
  split; [reflexivity|].
  apply (proj2 (proj2 (proj2
    (base_capabilities_raise ext0 abstract_problem eq_refl)))).
Defined.

(** C7, as stated, fails for [distance]: the error of the abstract class is
    not a NotImplementedError. *)
Lemma base_distance_not_NotImplementedError :
  ¬ ∃ msg, distance ext0 abstract_problem [0%float; 0%float] [1%float; 1%float]
           = Raise (NotImplementedError msg).
Proof. intros [msg Hmsg]. vm_compute in Hmsg. discriminate. Qed.

(** ** Scenario A *)

(** The tables of Scenario A after its first iteration. *)
Lemma scenario_A_first_iteration (ext : External) (fuel : nat)
    (g : RandomState) (t0 : Tree) :
  init_tree scenario_A 10 = Ret t0 →
  PrimFloat.ltb (draws g (cursor g)) 1 = true →
  iteration ext (S (S fuel)) scenario_A 2%float 1%float t0 g
  = (Ret ({| V := <[1%nat := [1%float; 1%float]]> (V t0);
             P := <[1%nat := 0]> (P t0);
             n := 2 |},
          Some [[0%float; 0%float]; [1%float; 1%float]]),
     snd (random_sample g)).
Proof.
  intros [= <-] Hz.
  unfold iteration, propose, sample, mbind, Rand_bind, random_sample.
  rewrite Hz. reflexivity.
Qed.

Lemma scenario_A_grow (ext : External) (fuel : nat) (g : RandomState) :
  PrimFloat.ltb (draws g (cursor g)) 1 = true →
  grow ext (S (S fuel)) scenario_A 2%float 10 1%float g
  = (Ret scenario_A_result, snd (random_sample g)).
Proof.
  intros Hz.
  set (t0 := {| V := replicate 10 [0%float; 0%float];
                P := replicate 10 (-1); n := 1 |}).
  assert (Hinit : init_tree scenario_A 10 = Ret t0) by reflexivity.
  pose proof (scenario_A_first_iteration ext fuel g t0 Hinit Hz) as Hit.
  unfold grow. rewrite Hinit.
  change (Z.to_nat 10) with 10%nat. cbn [loop].
  unfold mbind at 1, Rand_bind at 1, lift.
  unfold mbind at 1, Rand_bind at 1.
  rewrite Hit. reflexivity.
Qed.

(** C8: Scenario A.  Whatever the generator delivers (a double below 1), the
    first iteration samples the goal, snaps to it, appends it and ends the
    run with the path [[(0,0), (1,1)]]: one draw consumed, two nodes; the
    call then plots that path and returns. *)
Theorem scenario_A_succeeds_first_iteration (ext : External) (fuel : nat)
    (w : World) :
  PrimFloat.ltb (draws (np_random w) (cursor (np_random w))) 1 = true →
  grow ext (S (S fuel)) scenario_A 2%float 10 1%float (np_random w)
  = (Ret scenario_A_result, snd (random_sample (np_random w)))
  ∧ success scenario_A_result = true
  ∧ n (tree scenario_A_result) = 2
  ∧ solution_path scenario_A_result
    = Some [[0%float; 0%float]; [1%float; 1%float]]
  ∧ fst (solve ext (S (S fuel)) scenario_A 2%float 10 1%float w) = Ret PyNone
  ∧ plot_path [[0%float; 0%float]; [1%float; 1%float]]
    ∈ plt_calls (snd (solve ext (S (S fuel)) scenario_A 2%float 10 1%float w)).
Proof.
  intros Hz. pose proof (scenario_A_grow ext fuel (np_random w) Hz) as Hgrow.
  split_and!; [done|done|done|done|..]; unfold solve; rewrite Hgrow.
  - reflexivity.
  - cbn. apply elem_of_app. right. in_calls.
Qed.

Lemma scenario_A_succeeds_first_iteration_witness :
  PrimFloat.ltb 0.25 1 = true
  ∧ grow ext0 2 scenario_A 2%float 10 1%float (stream [0.25%float])
    = (Ret scenario_A_result, snd (random_sample (stream [0.25%float])))
  ∧ fst (solve ext0 2 scenario_A 2%float 10 1%float (world0 [0.25%float]))
    = Ret PyNone.
Proof.
  split; [reflexivity|].
  destruct (scenario_A_succeeds_first_iteration ext0 0 (world0 [0.25%float])
              eq_refl) as (Hgrow & _ & _ & _ & Hret & _).
  split; [exact Hgrow|exact Hret].
Defined.

(** ** The last append *)

(** On a full tree an accepted candidate has no slot left. *)
Lemma extend_full_tree_raises (ext : External) (fuel : nat) (self : RRT)
    (t : Tree) (idx_near : Z) (x_near x_new : Config) :
  len (V t) ≤ n t →
  is_free_motion ext self (obstacles self) x_near x_new = Ret true →
  extend ext fuel self t idx_near x_near x_new = Raise IndexError.
Proof.
  intros Hfull Hfree. unfold extend. rewrite Hfree. simpl.
  unfold set_row, norm_index.
  destruct (n t <? - len (V t)); [done|].
  destruct (len (V t) <=? n t) eqn:Hle; [done|lia].
Qed.

(** C2, at the failing inputs: with [max_iters = 1] the first accepted node
    (here the goal itself) is written to row 1 of a one-row table; with
    [max_iters = 3] and no goal bias, two accepted nodes fill the table
    without reaching the goal and the third append overruns it.  Both calls
    end in IndexError. *)
Theorem append_overruns_preallocated_tables (fuel : nat) :
  fst (grow ext0 fuel scenario_A 2%float 1 1%float (stream [0.25%float]))
  = Raise IndexError
  ∧ (∃ t0 r g',
       init_tree scenario_A 3 = Ret t0
       ∧ loop ext0 2 fuel scenario_A 2%float 0%float t0 (stream [0.75%float])
         = (Ret r, g')
       ∧ success r = false ∧ n (tree r) = 3 ∧ len (V (tree r)) = 3)
  ∧ fst (grow ext0 fuel scenario_A 2%float 3 0%float (stream [0.75%float]))
    = Raise IndexError.
Proof.
  split_and!.
  - reflexivity.
  - eexists _, _, _. split_and!; reflexivity.
  - reflexivity.
Qed.

(** ** Path reconstruction *)

(** More fuel does not change an answer of the [while] loop. *)
Lemma walk_fuel_mono (fuel fuel' : nat) (Vt : Matrix) (Pt : list Z)
    (init : Config) (idx : Z) (acc : list Config) (o : Outcome (list Config)) :
  walk fuel Vt Pt init idx acc = o → o ≠ OutOfFuel → (fuel ≤ fuel')%nat →
  walk fuel' Vt Pt init idx acc = o.
Proof.
  revert fuel' idx acc. induction fuel as [|fuel IH]; intros fuel' idx acc.
  - simpl. by intros <-.
  - intros Hw Ho Hle. destruct fuel' as [|fuel']; [lia|].
    simpl in *. destruct (getitem Vt idx) as [row| |]; simpl in *; [|done..].
    destruct (array_equal row init); [done|].
    destruct (getitem Pt idx) as [p| |]; simpl in *; [|done..].
    destruct (getitem Vt p) as [prow| |]; simpl in *; [|done..].
    apply IH; [done|done|lia].
Qed.

Lemma walk_chain (Vt : Matrix) (Pt : list Z) (init : Config) (i j : Z)
    (visited : list Config) :
  chain Vt Pt init i visited j →
  ∀ fuel acc, (length visited < fuel)%nat →
    walk fuel Vt Pt init i acc = Ret (acc ++ visited).
Proof.
  induction 1 as [i row Hrow Heq|i p j row prow visited Hrow Hne Hp Hprow _ IH];
    intros fuel acc Hfuel; (destruct fuel as [|fuel]; [simpl in Hfuel; lia|]);
    simpl; rewrite Hrow; simpl.
  - rewrite Heq. by rewrite app_nil_r.
  - rewrite Hne, Hp. simpl. rewrite Hprow. simpl.
    rewrite IH; [|simpl in Hfuel; lia]. by rewrite <- app_assoc.
Qed.

Lemma chain_end (Vt : Matrix) (Pt : list Z) (init : Config) (i j : Z)
    (visited : list Config) :
  chain Vt Pt init i visited j →
  ∃ row, getitem Vt j = Ret row ∧ array_equal row init = true
         ∧ (visited ≠ [] → last visited = Some row).
Proof.
  induction 1 as [i row Hrow Heq|i p j row prow visited Hrow Hne Hp Hprow Hch IH].
  - exists row. done.
  - destruct IH as (end_row & Hj & Hend & Hlast).
    exists end_row. split_and!; [done|done|]. intros _.
    destruct visited as [|v visited]; [|rewrite last_cons, Hlast; done].
    inversion Hch; subst. simpl. rewrite Hprow in Hj. by injection Hj as ->.
Qed.

(** [j] is the first node of the chain with the value of [init]: it is the
    ancestor of rank [length visited], and no ancestor of lower rank has
    that value. *)
Lemma chain_ancestors (Vt : Matrix) (Pt : list Z) (init : Config) (i j : Z)
    (visited : list Config) :
  chain Vt Pt init i visited j →
  ancestor Pt (length visited) i = Ret j
  ∧ ∀ k, (k < length visited)%nat →
      ∃ a row, ancestor Pt k i = Ret a ∧ getitem Vt a = Ret row
               ∧ array_equal row init = false.
Proof.
  induction 1 as [i row Hrow Heq|i p j row prow visited Hrow Hne Hp Hprow _ IH].
  - split; [done|]. simpl. lia.
  - destruct IH as [Hj Hbefore]. simpl. rewrite Hp. simpl. split; [done|].
    intros [|k] Hk.
    + exists i, row. done.
    + simpl. rewrite Hp. simpl. apply Hbefore. lia.
Qed.

(** The parent chain of a well-formed tree rooted at [init] is finite:
    the [while] loop ends, in at most [idx + 1] tests. *)
Lemma walk_terminates (t : Tree) (init root : Config) :
  tree_wf t → V t !! 0%nat = Some root → array_equal root init = true →
  ∀ k idx acc, 0 ≤ idx < n t → idx < Z.of_nat k →
    ∃ path, walk k (V t) (P t) init idx acc = Ret path.
Proof.
  intros [[Hn HVP] [Hroot Hpar]] HV0 Heq.
  induction k as [|k IH]; intros idx acc Hidx Hk; [lia|]. simpl.
  assert (is_Some (V t !! Z.to_nat idx)) as [row Hrow].
  { apply lookup_lt_is_Some. unfold len in *. lia. }
  rewrite (getitem_nonneg _ _ row) by (lia || done). simpl.
  destruct (array_equal row init) eqn:Hrow_eq; [eauto|].
  assert (idx ≠ 0) as Hnz.
  { intros ->. change (Z.to_nat 0) with 0%nat in Hrow.
    rewrite HV0 in Hrow. injection Hrow as <-. congruence. }
  destruct (Hpar idx) as (p & Hp & Hprange); [lia|].
  rewrite (getitem_nonneg _ _ p) by (lia || done). simpl.
  assert (is_Some (V t !! Z.to_nat p)) as [prow Hprow].
  { apply lookup_lt_is_Some. unfold len in *. lia. }
  rewrite (getitem_nonneg _ _ prow) by (lia || done). simpl.
  apply IH; lia.
Qed.

(** C10: the reconstruction stops at the first node of the parent chain
    whose row equals [x_init] by value, not at index 0.  With [j] that node
    (the ancestor of the appended node of rank [length visited], no ancestor
    of lower rank having the value of [x_init]) and [visited] the rows
    passed on the way to it, the path is [visited] reversed, then [x_goal];
    when the appended node is not itself that node, the path begins with the
    row of [j], whether or not [j] is index 0. *)
Theorem reconstruct_stops_at_first_init_valued_node (fuel : nat) (self : RRT)
    (t : Tree) (visited : list Config) (j : Z) :
  chain (V t) (P t) (x_init self) (n t - 1) visited j →
  (length visited < fuel)%nat →
  reconstruct fuel self t = Ret (reverse visited ++ [x_goal self])
  ∧ ancestor (P t) (length visited) (n t - 1) = Ret j
  ∧ (∀ k, (k < length visited)%nat →
       ∃ a row, ancestor (P t) k (n t - 1) = Ret a
                ∧ getitem (V t) a = Ret row
                ∧ array_equal row (x_init self) = false)
  ∧ ∃ row, getitem (V t) j = Ret row
           ∧ array_equal row (x_init self) = true
           ∧ (visited ≠ [] →
              head (reverse visited ++ [x_goal self]) = Some row).
Proof.
  intros Hch Hfuel.
  destruct (chain_ancestors _ _ _ _ _ _ Hch) as [Hrank Hbefore].
  split_and!; [|done|done|].
  - unfold reconstruct.
    rewrite (walk_chain _ _ _ _ _ _ Hch) by done. simpl.
    by rewrite reverse_cons.
  - destruct (chain_end _ _ _ _ _ _ Hch) as (row & Hj & Heq & Hlast).
    exists row. split_and!; [done|done|]. intros Hne.
    rewrite head_app, head_reverse, Hlast; done.
Qed.

Lemma reconstruct_stops_at_first_init_valued_node_witness :
  let t := {| V := [[0%float; 0%float]; [(-0)%float; 0%float];
                    [1%float; 1%float]];
              P := [-1; 0; 1]; n := 3 |} in
  reconstruct 2 scenario_A t
  = Ret [[(-0)%float; 0%float]; [1%float; 1%float]]
  ∧ ancestor (P t) 1 2 = Ret 1.
Proof.
  intros t.
  destruct (reconstruct_stops_at_first_init_valued_node 2 scenario_A t
              [[(-0)%float; 0%float]] 1) as (Hpath & Hrank & _).
  - eapply chain_step; [reflexivity..|]. eapply chain_stop; reflexivity.
  - simpl. lia.
  - split; [exact Hpath|exact Hrank].
Defined.

(** The loop of the reconstruction ends on every well-formed tree whose
    root has the value of [x_init]. *)
Lemma reconstruct_terminates (self : RRT) (t : Tree) (root : Config) :
  tree_wf t → V t !! 0%nat = Some root →
  array_equal root (x_init self) = true →
  ∃ path, ∀ fuel, (Z.to_nat (n t) ≤ fuel)%nat →
    reconstruct fuel self t = Ret path.
Proof.
  intros Hwf Hroot Heq.
  destruct (walk_terminates t (x_init self) root Hwf Hroot Heq
              (Z.to_nat (n t)) (n t - 1) [x_goal self]) as [path Hpath].
  { destruct Hwf as [[Hn _] _]. lia. }
  { destruct Hwf as [[Hn _] _]. lia. }
  exists (reverse path). intros fuel Hfuel. unfold reconstruct.
  rewrite (walk_fuel_mono _ fuel _ _ _ _ _ _ Hpath); done.
Qed.

(** ** Success *)

Section Success.
Context (ext : External).

(** A successful iteration appended a node equal to the goal. *)
Lemma iteration_success (fuel : nat) (self : RRT) (eps goal_bias : float)
    (t t' : Tree) (g g' : RandomState) (path : list Config) :
  iteration ext fuel self eps goal_bias t g = (Ret (t', Some path), g') →
  ∃ idx_near x_near x_new,
    propose ext self eps goal_bias t g = (Ret (idx_near, x_near, x_new), g')
    ∧ is_free_motion ext self (obstacles self) x_near x_new = Ret true
    ∧ array_equal x_new (x_goal self) = true
    ∧ set_row (V t) (n t) x_new = Ret (V t')
    ∧ setitem (P t) (n t) idx_near = Ret (P t')
    ∧ n t' = n t + 1.
Proof.
  intros (idx & x_near & x_new & Hp & He)%iteration_Ret.
  exists idx, x_near, x_new. split; [done|].
  apply extend_Ret in He as [(_ & _ & [=])|(Hfree & V' & P' & HV & HP & -> & Hgoal)].
  destruct (array_equal x_new (x_goal self)).
  - done.
  - discriminate.
Qed.

Lemma iteration_size (fuel : nat) (self : RRT) (eps goal_bias : float)
    (t t' : Tree) (g g' : RandomState) (found : option (list Config)) :
  iteration ext fuel self eps goal_bias t g = (Ret (t', found), g') →
  n t ≤ n t' ∧ (is_Some found → n t' = n t + 1).
Proof.
  intros (idx & x_near & x_new & _ & He)%iteration_Ret.
  apply extend_Ret in He as [(_ & -> & ->)|(_ & V' & P' & _ & _ & -> & _)].
  - split; [lia|]. by intros [? [=]].
  - simpl. lia.
Qed.

Lemma loop_success (iters fuel : nat) (self : RRT) (eps goal_bias : float)
    (t : Tree) (g g' : RandomState) (r : Result) :
  loop ext iters fuel self eps goal_bias t g = (Ret r, g') →
  n t ≤ n (tree r)
  ∧ if success r
    then n t < n (tree r) ∧ (0 < iters)%nat ∧ is_Some (solution_path r)
    else solution_path r = None.
Proof.
  revert t g. induction iters as [|iters IH]; intros t g; simpl.
  - intros [= <- _]. simpl. split; [lia|done].
  - intros ([t' found] & g1 & Hit & Hrest)%Rand_bind_Ret.
    apply iteration_size in Hit as [Hle Hfound].
    destruct found as [path|].
    + injection Hrest as <- _. simpl. split; [done|].
      split_and!; [|lia|eauto]. rewrite Hfound by eauto. lia.
    + apply IH in Hrest as [Hle' Hrest]. split; [lia|].
      destruct (success r); [|done].
      destruct Hrest as (Hlt & _ & Hsome). split_and!; [lia|lia|done].
Qed.

End Success.

(** C9: the goal test is applied to appended nodes only.  Before any
    iteration the run has not succeeded, whatever [x_init] is; an iteration
    that ends the run has appended a node whose value equals [x_goal]; and a
    run that succeeds made at least one iteration and holds at least two
    nodes.  None of this looks at whether [x_init] equals [x_goal]. *)
Theorem goal_test_only_on_appended_nodes (ext : External) (fuel : nat)
    (self : RRT) (eps : float) (max_iters : Z) (goal_bias : float) :
  (∀ t g, ∃ r,
     loop ext 0 fuel self eps goal_bias t g = (Ret r, g) ∧ success r = false)
  ∧ (∀ t g t' path g',
       iteration ext fuel self eps goal_bias t g = (Ret (t', Some path), g') →
       ∃ idx_near x_near x_new,
         propose ext self eps goal_bias t g
         = (Ret (idx_near, x_near, x_new), g')
         ∧ array_equal x_new (x_goal self) = true
         ∧ set_row (V t) (n t) x_new = Ret (V t')
         ∧ n t' = n t + 1)
  ∧ (∀ g r g',
       grow ext fuel self eps max_iters goal_bias g = (Ret r, g') →
       success r = true →
       1 ≤ max_iters ∧ 2 ≤ n (tree r)).
Proof.
  split_and!.
  - intros t g. eexists. split; reflexivity.
  - intros t g t' path g' Hit.
    apply iteration_success in Hit
      as (idx & x_near & x_new & Hp & _ & Hgoal & HV & _ & Hn).
    exists idx, x_near, x_new. done.
  - intros g r g'. unfold grow.
    intros (t0 & g1 & [Hinit ->]%lift_Ret & Hloop)%Rand_bind_Ret Hsucc.
    apply init_tree_Ret in Hinit as (Hm & Hn & _).
    apply loop_success in Hloop as [_ Hs]. rewrite Hsucc in Hs.
    destruct Hs as (Hlt & _ & _). lia.
Qed.

Lemma goal_test_only_on_appended_nodes_witness :
  ∃ r g',
    grow ext0 1 scenario_same 2%float 5 1%float (stream [0.25%float])
    = (Ret r, g')
    ∧ success r = true ∧ 1 ≤ 5 ∧ 2 ≤ n (tree r).
Proof.
  eexists _, _. split; [vm_compute; reflexivity|]. split; [reflexivity|].
  eapply (proj2 (proj2
    (goal_test_only_on_appended_nodes ext0 1 scenario_same 2%float 5 1%float))
    (stream [0.25%float])).
  - vm_compute. reflexivity.
  - reflexivity.
Defined.

(** When the goal is the start, a run that is given no iteration, or whose
    every candidate is rejected, does not succeed; one that appends the goal
    succeeds with the appended node alone as its path. *)
Example same_init_goal_runs :
  (∃ r g', loop ext0 0 1 scenario_same 2%float 1%float
             {| V := [[1%float; 1%float]]; P := [-1]; n := 1 |}
             (stream [0.25%float]) = (Ret r, g')
           ∧ success r = false)
  ∧ (∃ r g', grow ext0 1 scenario_same 2%float 5 1%float (stream [0.25%float])
             = (Ret r, g')
             ∧ success r = true ∧ n (tree r) = 2
             ∧ solution_path r = Some [[1%float; 1%float]]).
Proof.
  split.
  - eexists _, _. split; reflexivity.
  - eexists _, _. split; [vm_compute; reflexivity|]. repeat split.
Qed.

(** ** What [solve] hands over *)

(** When the plotting goes through, the tree was handed to [plot_tree], and
    a path to [plot_path] exactly when the run succeeded. *)
Lemma render_Ret (self : RRT) (r : Result) (cs : list PlotCall) (u : ()) :
  render self r = (cs, Ret u) →
  plot_tree (V (tree r)) (P (tree r)) ∈ cs
  ∧ if success r
    then ∃ path, solution_path r = Some path ∧ plot_path path ∈ cs
    else ∀ path, plot_path path ∉ cs.
Proof.
  unfold render, do_plot_tree, do_plot_path, call, eval.
  unfold mbind, Plot_bind, mret, Plot_ret.
  destruct (cls self), (success r), (solution_path r) as [path|];
    repeat (case_match; simplify_eq; try discriminate);
    intros Hcs; simplify_eq; (split; [in_calls|]);
    first [ by (eexists; split; [reflexivity|in_calls]) | not_in_calls ].
Qed.

(** C1 (as the code has it): a call of [solve] that returns, returns [None].
    The success flag, the tree and the path are the outputs of the growth
    loop, kept inside the call: in both terminal outcomes the tree is handed
    to [plot_tree]; the path exists and is handed to [plot_path] exactly
    when the run succeeded, and there is no path when the iterations were
    exhausted. *)
Theorem solve_returns_none (ext : External) (fuel : nat) (self : RRT)
    (eps : float) (max_iters : Z) (goal_bias : float) (w w' : World)
    (v : PyValue) :
  solve ext fuel self eps max_iters goal_bias w = (Ret v, w') →
  v = PyNone
  ∧ ∃ r cs,
      grow ext fuel self eps max_iters goal_bias (np_random w)
      = (Ret r, np_random w')
      ∧ plt_calls w' = plt_calls w ++ cs
      ∧ plot_tree (V (tree r)) (P (tree r)) ∈ cs
      ∧ if success r
        then ∃ path, solution_path r = Some path ∧ plot_path path ∈ cs
        else solution_path r = None ∧ ∀ path, plot_path path ∉ cs.
Proof.
  unfold solve.
  destruct (grow ext fuel self eps max_iters goal_bias (np_random w))
    as [[r| |] g'] eqn:Hgrow; [|discriminate..].
  destruct (render self r) as [cs [[]| |]] eqn:Hrender; simpl; [|discriminate..].
  intros [= <- <-]. split; [done|]. exists r, cs. simpl.
  split_and!; [done|done|..].
  - by apply render_Ret in Hrender as [? _].
  - apply render_Ret in Hrender as [_ Hpath].
    unfold grow in Hgrow.
    apply Rand_bind_Ret in Hgrow as (t0 & g1 & _ & Hloop).
    apply loop_success in Hloop as [_ Hs].
    destruct (success r); [done|]. done.
Qed.

Lemma solve_returns_none_witness :
  ∃ w' r (cs : list PlotCall),
    solve ext0 2 scenario_A 2%float 10 1%float (world0 [0.25%float])
    = (Ret PyNone, w')
    ∧ grow ext0 2 scenario_A 2%float 10 1%float (stream [0.25%float])
      = (Ret r, np_random w')
    ∧ plot_tree (V (tree r)) (P (tree r)) ∈ cs.
Proof.
  assert (∃ w', solve ext0 2 scenario_A 2%float 10 1%float
                  (world0 [0.25%float]) = (Ret PyNone, w')) as [w' Hsolve].
  { eexists. vm_compute. reflexivity. }
  destruct (solve_returns_none ext0 2 scenario_A 2%float 10 1%float
              (world0 [0.25%float]) w' PyNone Hsolve)
    as (_ & r & cs & Hgrow & _ & Htree & _).
  exists w', r, cs. split_and!; [exact Hsolve|exact Hgrow|exact Htree].
Defined.

(** C1, as stated, fails: in Scenario A the call succeeds and returns [None],
    not a triple of success flag, tree and path. *)
Lemma solve_returns_no_triple :
  fst (solve ext0 2 scenario_A 2%float 10 1%float (world0 [0.25%float]))
  = Ret PyNone
  ∧ ¬ ∃ ok nodes parents path,
        fst (solve ext0 2 scenario_A 2%float 10 1%float (world0 [0.25%float]))
        = Ret (PyTriple ok nodes parents path).
Proof.
  split; [vm_compute; reflexivity|].
  intros (ok & nodes & parents & path & Hret).
  vm_compute in Hret. discriminate.
Qed.

(** ** The random source *)

Lemma same_stream_le (k k' : nat) (g1 g2 : RandomState) :
  (k' ≤ k)%nat → same_stream k g1 g2 → same_stream k' g1 g2.
Proof. intros Hk Hs i Hi. apply Hs. lia. Qed.

Lemma reads_only_le {A : Type} (k k' : nat) (m : Rand A) :
  (k ≤ k')%nat → reads_only k m → reads_only k' m.
Proof.
  intros Hk Hm g1 g2 Hs.
  destruct (Hm g1 g2 (same_stream_le _ _ _ _ Hk Hs)) as (Ho & j & Hj & H1 & H2).
  split; [done|]. exists j. split_and!; [lia|done|done].
Qed.

Lemma reads_only_lift {A : Type} (o : Outcome A) : reads_only 0 (lift o).
Proof.
  intros g1 g2 _. split; [done|]. exists 0%nat. unfold advanced, lift. simpl.
  split_and!; (done || lia).
Qed.

Lemma reads_only_ret {A : Type} (a : A) : reads_only 0 (mret a : Rand A).
Proof. apply (reads_only_lift (Ret a)). Qed.

Lemma reads_only_bind {A B : Type} (k1 k2 : nat) (m : Rand A) (f : A → Rand B) :
  reads_only k1 m → (∀ a, reads_only k2 (f a)) →
  reads_only (k1 + k2) (m ≫= f).
Proof.
  intros Hm Hf g1 g2 Hs.
  destruct (Hm g1 g2) as (Ho & j & Hj & [Hd1 Hc1] & [Hd2 Hc2]).
  { eapply same_stream_le; [|done]. lia. }
  unfold mbind, Rand_bind.
  destruct (m g1) as [o1 g1'], (m g2) as [o2 g2']. simpl in *. subst o2.
  destruct o1 as [a| |]; simpl.
  - destruct (Hf a g1' g2') as (Ho' & j' & Hj' & [Hd1' Hc1'] & [Hd2' Hc2']).
    { intros i Hi. rewrite Hd1, Hd2.
      replace (cursor g1' + i)%nat with (cursor g1 + (j + i))%nat by lia.
      replace (cursor g2' + i)%nat with (cursor g2 + (j + i))%nat by lia.
      apply Hs. lia. }
    split; [done|]. exists (j + j')%nat. unfold advanced.
    split_and!; (congruence || lia).
  - split; [done|]. exists j. unfold advanced. split_and!; (done || lia).
  - split; [done|]. exists j. unfold advanced. split_and!; (done || lia).
Qed.

Lemma reads_only_random_sample :
  reads_only 1 (λ g, let '(z, g') := random_sample g in (Ret z, g')).
Proof.
  intros g1 g2 Hs. unfold random_sample, advanced. simpl. split.
  - f_equal. specialize (Hs 0%nat). rewrite !Nat.add_0_r in Hs. apply Hs. lia.
  - exists 1%nat. split_and!; (done || lia).
Qed.

Lemma reads_only_random_uniform (lo hi : float) :
  reads_only 1 (random_uniform lo hi).
Proof.
  intros g1 g2 Hs. unfold random_uniform, random_sample, advanced.
  destruct (PrimFloat.is_finite (PrimFloat.sub hi lo)); simpl.
  - split.
    + do 3 f_equal. specialize (Hs 0%nat). rewrite !Nat.add_0_r in Hs.
      apply Hs. lia.
    + exists 1%nat. split_and!; (done || lia).
  - split; [done|]. exists 0%nat. split_and!; (done || lia).
Qed.

Lemma reads_only_uniform_each (bounds : list (float * float)) :
  reads_only (length bounds) (uniform_each bounds).
Proof.
  induction bounds as [|[lo hi] bounds IH]; simpl.
  - apply reads_only_ret.
  - apply (reads_only_bind 1 (length bounds));
      [apply reads_only_random_uniform|].
    intros v. apply (reads_only_le (length bounds + 0)); [lia|].
    apply reads_only_bind; [exact IH|]. intros vs. apply reads_only_ret.
Qed.

Lemma reads_only_sample (self : RRT) (goal_bias : float) :
  reads_only (1 + sample_dim self) (sample self goal_bias).
Proof.
  unfold sample. apply reads_only_bind; [apply reads_only_random_sample|].
  intros z. destruct (PrimFloat.ltb z goal_bias).
  - apply (reads_only_le 0); [lia|]. apply reads_only_ret.
  - apply reads_only_uniform_each.
Qed.

Lemma reads_only_iteration (ext : External) (fuel : nat) (self : RRT)
    (eps goal_bias : float) (t : Tree) :
  reads_only (1 + sample_dim self) (iteration ext fuel self eps goal_bias t).
Proof.
  unfold iteration, propose.
  apply (reads_only_le (1 + sample_dim self + 0 + 0)); [lia|].
  apply reads_only_bind.
  - apply reads_only_bind; [apply reads_only_sample|].
    intros x_rand. apply reads_only_lift.
  - intros [[idx_near x_near] x_new]. apply reads_only_lift.
Qed.

Lemma reads_only_loop (ext : External) (iters fuel : nat) (self : RRT)
    (eps goal_bias : float) (t : Tree) :
  reads_only (iters * (1 + sample_dim self))
    (loop ext iters fuel self eps goal_bias t).
Proof.
  revert t. induction iters as [|iters IH]; intros t.
  - apply reads_only_ret.
  - change (S iters * (1 + sample_dim self))%nat
      with ((1 + sample_dim self) + iters * (1 + sample_dim self))%nat.
    change (loop ext (S iters) fuel self eps goal_bias t)
      with (iteration ext fuel self eps goal_bias t ≫= λ r,
              match r with
              | (t', Some path) =>
                  mret {| tree := t'; success := true;
                          solution_path := Some path |}
              | (t', None) => loop ext iters fuel self eps goal_bias t'
              end).
    apply reads_only_bind; [apply reads_only_iteration|].
    intros [t' [path|]]; [|apply IH].
    apply (reads_only_le 0); [lia|]. apply reads_only_ret.
Qed.

Lemma reads_only_grow (ext : External) (fuel : nat) (self : RRT)
    (eps : float) (max_iters : Z) (goal_bias : float) :
  reads_only (Z.to_nat max_iters * (1 + sample_dim self))
    (grow ext fuel self eps max_iters goal_bias).
Proof.
  unfold grow.
  apply (reads_only_bind 0); [apply reads_only_lift|].
  intros t0. apply reads_only_loop.
Qed.

(** C5 (as the code has it): the random source is numpy's global generator,
    which [solve] reads and leaves advanced, and the doubles it delivers are
    all that a run takes from it.  Two calls with the same problem and
    arguments, started on generators that may be in different states but
    deliver the same doubles for as long as a run can draw ([1 + d] doubles
    per iteration, [d] the number of bounds), end alike: the same tree,
    success flag and path, the same outcome of [solve], the same calls to
    the plotting collaborators, and the same number of doubles consumed. *)
Theorem solve_determined_by_delivered_doubles (ext : External) (fuel : nat)
    (self : RRT) (eps : float) (max_iters : Z) (goal_bias : float)
    (w1 w2 : World) :
  same_stream (Z.to_nat max_iters * (1 + sample_dim self))
    (np_random w1) (np_random w2) →
  fst (grow ext fuel self eps max_iters goal_bias (np_random w1))
  = fst (grow ext fuel self eps max_iters goal_bias (np_random w2))
  ∧ fst (solve ext fuel self eps max_iters goal_bias w1)
    = fst (solve ext fuel self eps max_iters goal_bias w2)
  ∧ (∃ cs,
       plt_calls (snd (solve ext fuel self eps max_iters goal_bias w1))
       = plt_calls w1 ++ cs
       ∧ plt_calls (snd (solve ext fuel self eps max_iters goal_bias w2))
         = plt_calls w2 ++ cs)
  ∧ ∃ k, (k ≤ Z.to_nat max_iters * (1 + sample_dim self))%nat
      ∧ advanced k k (np_random w1)
          (np_random (snd (solve ext fuel self eps max_iters goal_bias w1)))
      ∧ advanced k k (np_random w2)
          (np_random (snd (solve ext fuel self eps max_iters goal_bias w2))).
Proof.
  intros Hs.
  destruct (reads_only_grow ext fuel self eps max_iters goal_bias _ _ Hs)
    as (Ho & k & Hk & H1 & H2).
  unfold solve.
  destruct (grow ext fuel self eps max_iters goal_bias (np_random w1))
    as [o1 g1'].
  destruct (grow ext fuel self eps max_iters goal_bias (np_random w2))
    as [o2 g2'].
  simpl in Ho, H1, H2. subst o2. split; [done|].
  destruct o1 as [r| |]; simpl.
  - destruct (render self r) as [cs o]. simpl.
    split_and!; [done|by exists cs|by exists k].
  - split_and!; [done| |by exists k]. exists []. by rewrite !app_nil_r.
  - split_and!; [done| |by exists k]. exists []. by rewrite !app_nil_r.
Qed.

Lemma solve_determined_by_delivered_doubles_witness :
  let w1 := {| np_random := stream [0.25%float]; plt_calls := [] |} in
  let w2 := {| np_random := stream_used; plt_calls := [plt_legend] |} in
  same_stream 30 (np_random w1) (np_random w2)
  ∧ cursor (np_random w1) = 0%nat ∧ cursor (np_random w2) = 2%nat
  ∧ fst (solve ext0 2 scenario_A 2%float 10 0.5%float w1) = Ret PyNone
  ∧ fst (solve ext0 2 scenario_A 2%float 10 0.5%float w2) = Ret PyNone
  ∧ fst (grow ext0 2 scenario_A 2%float 10 0.5%float (np_random w1))
    = fst (grow ext0 2 scenario_A 2%float 10 0.5%float (np_random w2)).
Proof.
  intros w1 w2.
  assert (same_stream 30 (np_random w1) (np_random w2)) as Hs.
  { intros i _. destruct i as [|[|i]]; reflexivity. }
  split_and!; [exact Hs|reflexivity|reflexivity| | |].
  - vm_compute. reflexivity.
  - vm_compute. reflexivity.
  - apply (solve_determined_by_delivered_doubles ext0 2 scenario_A 2%float 10
             0.5%float w1 w2 Hs).
Defined.

(** C5, as stated, fails: the generator is not an argument of the call.  Two
    calls with the same problem and the same [(eps, max_iters, goal_bias)],
    in worlds that differ only in the state of numpy's global generator,
    both succeed and build trees of different sizes; and the call leaves the
    global generator in another state than it found it. *)
Lemma solve_reads_global_generator :
  let wa := world0 [0.25%float] in
  let wb := world0 [0.75%float; 0.5%float; 0.5%float; 0.25%float] in
  plt_calls wa = plt_calls wb
  ∧ (∃ ra rb ga gb,
       grow ext0 2 scenario_A 2%float 10 0.5%float (np_random wa) = (Ret ra, ga)
       ∧ grow ext0 2 scenario_A 2%float 10 0.5%float (np_random wb) = (Ret rb, gb)
       ∧ success ra = true ∧ success rb = true
       ∧ n (tree ra) = 2 ∧ n (tree rb) = 3)
  ∧ plt_calls (snd (solve ext0 2 scenario_A 2%float 10 0.5%float wa))
    ≠ plt_calls (snd (solve ext0 2 scenario_A 2%float 10 0.5%float wb))
  ∧ cursor (np_random (snd (solve ext0 2 scenario_A 2%float 10 0.5%float wa)))
    ≠ cursor (np_random wa).
Proof.
  intros wa wb. split_and!.
  - reflexivity.
  - eexists _, _, _, _. split_and!; try (vm_compute; reflexivity).
  - intros Heq.
    apply (f_equal (λ cs, match cs !! 2%nat with
                          | Some (plot_tree _ Pt) => Pt !! 2%nat
                          | _ => None
                          end)) in Heq.
    vm_compute in Heq. discriminate.
  - vm_compute. discriminate.
Qed.

(** * Further properties *)

(** ** Comparisons of doubles *)

Lemma SFcompare_key (f1 f2 : SpecFloat.spec_float) (a b : Z * Z * Z) :
  sf_key f1 = Some a → sf_key f2 = Some b →
  match SpecFloat.SFcompare f1 f2 with
  | Some Lt => key_lt a b
  | Some Eq => a = b
  | Some Gt => key_lt b a
  | None => False
  end.
Proof.
  unfold key_lt.
  destruct f1 as [s1|s1| |s1 m1 e1], f2 as [s2|s2| |s2 m2 e2];
    try destruct s1; try destruct s2; simpl; intros Ha Hb;
    try discriminate; injection Ha as <-; injection Hb as <-; simpl;
    try done; try lia.
  - destruct (Z.compare_spec e1 e2); [|lia..].
    change (Pos.compare_cont Eq m1 m2) with (Pos.compare m1 m2).
    destruct (Pos.compare_spec m1 m2); simpl; [by subst|lia..].
  - destruct (Z.compare_spec e1 e2); [|lia..].
    change (Pos.compare_cont Eq m1 m2) with (Pos.compare m1 m2).
    destruct (Pos.compare_spec m1 m2); simpl; [by subst|lia..].
Qed.

Lemma SFcompare_nan (f1 f2 : SpecFloat.spec_float) :
  sf_key f1 = None ∨ sf_key f2 = None → SpecFloat.SFcompare f1 f2 = None.
Proof.
  destruct f1 as [s1|s1| |s1 m1 e1], f2 as [s2|s2| |s2 m2 e2];
    try destruct s1; try destruct s2; simpl; intros [?|?]; done.
Qed.

Lemma key_lt_irrefl (a : Z * Z * Z) : ¬ key_lt a a.
Proof. unfold key_lt. lia. Qed.

Lemma leb_key (x y : float) (a b : Z * Z * Z) :
  fkey x = Some a → fkey y = Some b → (PrimFloat.leb x y = true ↔ key_le a b).
Proof.
  intros Ha Hb. rewrite FloatAxioms.leb_spec. unfold SpecFloat.SFleb.
  pose proof (SFcompare_key _ _ _ _ Ha Hb) as H.
  unfold key_le, key_lt in *.
  destruct (SpecFloat.SFcompare _ _) as [[]|];
    split; intros; try done; subst; lia.
Qed.

Lemma ltb_key (x y : float) (a b : Z * Z * Z) :
  fkey x = Some a → fkey y = Some b → (PrimFloat.ltb x y = true ↔ key_lt a b).
Proof.
  intros Ha Hb. rewrite FloatAxioms.ltb_spec. unfold SpecFloat.SFltb.
  pose proof (SFcompare_key _ _ _ _ Ha Hb) as H.
  unfold key_le, key_lt in *.
  destruct (SpecFloat.SFcompare _ _) as [[]|];
    split; intros; try done; subst; lia.
Qed.

Lemma eqb_key (x y : float) (a b : Z * Z * Z) :
  fkey x = Some a → fkey y = Some b → (PrimFloat.eqb x y = true ↔ a = b).
Proof.
  intros Ha Hb. rewrite FloatAxioms.eqb_spec. unfold SpecFloat.SFeqb.
  pose proof (SFcompare_key _ _ _ _ Ha Hb) as H.
  destruct (SpecFloat.SFcompare _ _) as [[]|]; split; intros; try done;
    subst; by apply key_lt_irrefl in H.
Qed.

Lemma is_nan_key (x : float) : PrimFloat.is_nan x = true ↔ fkey x = None.
Proof.
  unfold PrimFloat.is_nan. destruct (fkey x) as [a|] eqn:Ha.
  - by rewrite (proj2 (eqb_key x x a a Ha Ha) eq_refl).
  - rewrite FloatAxioms.eqb_spec. unfold SpecFloat.SFeqb.
    by rewrite SFcompare_nan by (by left).
Qed.

Lemma not_nan_key (x : float) :
  PrimFloat.is_nan x = false → ∃ a, fkey x = Some a.
Proof.
  intros Hx. destruct (fkey x) as [a|] eqn:Ha; [eauto|].
  apply is_nan_key in Ha. congruence.
Qed.

Lemma leb_nan (x y : float) :
  PrimFloat.is_nan x = true ∨ PrimFloat.is_nan y = true →
  PrimFloat.leb x y = false.
Proof.
  rewrite !is_nan_key. intros H.
  rewrite FloatAxioms.leb_spec. unfold SpecFloat.SFleb.
  by rewrite SFcompare_nan.
Qed.

Lemma eqb_true_not_nan (x y : float) :
  PrimFloat.eqb x y = true →
  PrimFloat.is_nan x = false ∧ PrimFloat.is_nan y = false.
Proof.
  intros H.
  assert (∀ z, fkey z ≠ None → PrimFloat.is_nan z = false) as Hnn.
  { intros z Hz. destruct (PrimFloat.is_nan z) eqn:E; [|done].
    by apply is_nan_key in E. }
  rewrite FloatAxioms.eqb_spec in H. unfold SpecFloat.SFeqb in H.
  split; apply Hnn; intros Hk; unfold fkey in Hk;
    rewrite SFcompare_nan in H by auto; done.
Qed.

Lemma leb_true_keys (x y : float) :
  PrimFloat.leb x y = true →
  ∃ a b, fkey x = Some a ∧ fkey y = Some b ∧ key_le a b.
Proof.
  intros H.
  destruct (PrimFloat.is_nan x) eqn:Hx; [by rewrite leb_nan in H by auto|].
  destruct (PrimFloat.is_nan y) eqn:Hy; [by rewrite leb_nan in H by auto|].
  apply not_nan_key in Hx as [a Ha]. apply not_nan_key in Hy as [b Hb].
  exists a, b. split_and!; [done..|]. by apply (leb_key x y a b Ha Hb).
Qed.

Lemma ltb_true_keys (x y : float) :
  PrimFloat.ltb x y = true →
  ∃ a b, fkey x = Some a ∧ fkey y = Some b ∧ key_lt a b.
Proof.
  intros H. rewrite FloatAxioms.ltb_spec in H. unfold SpecFloat.SFltb in H.
  destruct (fkey x) as [a|] eqn:Ha; [|by rewrite SFcompare_nan in H by auto].
  destruct (fkey y) as [b|] eqn:Hb; [|by rewrite SFcompare_nan in H by auto].
  exists a, b. split_and!; [done..|].
  apply (ltb_key x y a b Ha Hb).
  rewrite FloatAxioms.ltb_spec. exact H.
Qed.

Lemma leb_refl (x : float) :
  PrimFloat.is_nan x = false → PrimFloat.leb x x = true.
Proof.
  intros [a Ha]%not_nan_key. apply (leb_key x x a a Ha Ha).
  unfold key_le. lia.
Qed.

Lemma not_leb_ltb (x y : float) :
  PrimFloat.is_nan x = false → PrimFloat.is_nan y = false →
  PrimFloat.leb x y = false → PrimFloat.ltb y x = true.
Proof.
  intros [a Ha]%not_nan_key [b Hb]%not_nan_key Hle.
  apply (ltb_key y x b a Hb Ha).
  destruct (decide (key_le a b)) as [Hab|Hab].
  - apply (leb_key x y a b Ha Hb) in Hab. congruence.
  - unfold key_le, key_lt in *. lia.
Qed.

Lemma ltb_leb_trans (x y z : float) :
  PrimFloat.ltb x y = true → PrimFloat.leb y z = true →
  PrimFloat.ltb x z = true.
Proof.
  intros (a & b & Ha & Hb & Hab)%ltb_true_keys
         (b' & c & Hb' & Hc & Hbc)%leb_true_keys.
  rewrite Hb in Hb'. injection Hb' as <-.
  apply (ltb_key x z a c Ha Hc). unfold key_le, key_lt in *. lia.
Qed.

Lemma ltb_leb (x y : float) :
  PrimFloat.ltb x y = true → PrimFloat.leb x y = true.
Proof.
  intros (a & b & Ha & Hb & Hab)%ltb_true_keys.
  apply (leb_key x y a b Ha Hb). unfold key_le, key_lt in *. lia.
Qed.

Lemma leb_trans (x y z : float) :
  PrimFloat.leb x y = true → PrimFloat.leb y z = true →
  PrimFloat.leb x z = true.
Proof.
  intros (a & b & Ha & Hb & Hab)%leb_true_keys
         (b' & c & Hb' & Hc & Hbc)%leb_true_keys.
  rewrite Hb in Hb'. injection Hb' as <-.
  apply (leb_key x z a c Ha Hc). unfold key_le in *. lia.
Qed.

(** ** The nearest node *)

(** [np.argmin] on distances without NaN: [pre] is the part of the array
    already read, [mp] its minimum, first reached at index [k]. *)
Lemma argmin_from_first_min (d pre : list float) (mp : float) (k : nat) :
  Forall (λ x, PrimFloat.is_nan x = false) (pre ++ d) →
  pre !! k = Some mp →
  (∀ j dj, pre !! j = Some dj → PrimFloat.leb mp dj = true) →
  (∀ j dj, (j < k)%nat → pre !! j = Some dj → PrimFloat.ltb mp dj = true) →
  ∃ kr dr,
    argmin_from mp (Z.of_nat k) (Z.of_nat (length pre)) d = Z.of_nat kr
    ∧ (pre ++ d) !! kr = Some dr
    ∧ (∀ j dj, (pre ++ d) !! j = Some dj → PrimFloat.leb dr dj = true)
    ∧ (∀ j dj, (j < kr)%nat → (pre ++ d) !! j = Some dj →
         PrimFloat.ltb dr dj = true).
Proof.
  revert pre mp k. induction d as [|x d IH]; intros pre mp k Hnn Hk Hle Hlt.
  - exists k, mp. simpl. rewrite app_nil_r. done.
  - assert (PrimFloat.is_nan mp = false) as Hmp.
    { apply Forall_app in Hnn as [Hpre _].
      by eapply (proj1 (Forall_lookup _ _) Hpre). }
    assert (PrimFloat.is_nan x = false) as Hx.
    { apply Forall_app in Hnn as [_ Hd]. by inversion Hd. }
    simpl. rewrite Hmp.
    replace (Z.of_nat (length pre) + 1) with (Z.of_nat (length (pre ++ [x])))
      by (rewrite length_app; simpl; lia).
    rewrite (cons_middle x pre d), app_assoc in Hnn |- *.
    destruct (PrimFloat.leb mp x) eqn:Hmx; simpl.
    + apply IH; [done|by apply lookup_app_l_Some| |].
      * intros j dj [Hj|[_ Hj]]%lookup_app_Some; [eauto|].
        destruct (j - length pre)%nat; [|done]. by injection Hj as <-.
      * intros j dj Hjk [Hj|[Hge _]]%lookup_app_Some; [eauto|].
        apply lookup_lt_Some in Hk. lia.
    + pose proof (not_leb_ltb _ _ Hmp Hx Hmx) as Hxm.
      apply IH; [done| | |].
      * rewrite lookup_app_r by lia. by rewrite Nat.sub_diag.
      * intros j dj [Hj|[_ Hj]]%lookup_app_Some.
        -- apply ltb_leb. eapply ltb_leb_trans; eauto.
        -- destruct (j - length pre)%nat; [|done]. injection Hj as <-.
           by apply leb_refl.
      * intros j dj Hjk [Hj|[Hge _]]%lookup_app_Some; [|lia].
        eapply ltb_leb_trans; eauto.
Qed.

Lemma argmin_from_nan (x : float) (idx i : Z) (d : list float) :
  PrimFloat.is_nan x = true → argmin_from x idx i d = idx.
Proof. intros Hx. destruct d; simpl; [done|]. by rewrite Hx. Qed.

Lemma argmin_from_first_nan (d1 d2 : list float) (x mp : float) (idx i : Z) :
  PrimFloat.is_nan mp = false →
  Forall (λ y, PrimFloat.is_nan y = false) d1 →
  PrimFloat.is_nan x = true →
  argmin_from mp idx i (d1 ++ x :: d2) = i + len d1.
Proof.
  revert mp idx i. unfold len.
  induction d1 as [|y d1 IH]; intros mp idx i Hmp Hd1 Hx; simpl; rewrite Hmp.
  - rewrite leb_nan by auto. simpl. rewrite argmin_from_nan by done. lia.
  - inversion Hd1 as [|? ? Hy Hd1']; subst.
    destruct (negb (PrimFloat.leb mp y)); rewrite IH by done; lia.
Qed.

Lemma mapM_Ret_Forall2 {A B : Type} (f : A → Outcome B) (l : list A)
    (k : list B) :
  mapM f l = Ret k → Forall2 (λ a b, f a = Ret b) l k.
Proof.
  revert k. induction l as [|a l IH]; intros k; simpl.
  - intros [= <-]. constructor.
  - destruct (f a) as [b| |] eqn:Hb; simpl; try discriminate.
    destruct (mapM f l) as [k'| |]; simpl; try discriminate.
    intros [= <-]. constructor; [done|by apply IH].
Qed.

Lemma Forall2_mapM_Ret {A B : Type} (f : A → Outcome B) (l : list A)
    (k : list B) :
  Forall2 (λ a b, f a = Ret b) l k → mapM f l = Ret k.
Proof.
  induction 1 as [|a b l k Hab _ IH]; simpl; [done|].
  rewrite Hab. simpl. rewrite IH. done.
Qed.

(** What [find_nearest] computes, for the classes that have it. *)
Lemma find_nearest_Ret (ext : External) (self : RRT) (Vt : Matrix)
    (x : Config) (i : Z) :
  find_nearest ext self Vt x = Ret i →
  ∃ ds, Forall2 (λ row d, distance ext self row x = Ret d) Vt ds
        ∧ np_argmin ds = Ret i.
Proof.
  unfold find_nearest.
  assert (Hgen : (mapM (λ row, distance ext self row x) Vt ≫= np_argmin) = Ret i
                 → ∃ ds, Forall2 (λ row d, distance ext self row x = Ret d) Vt ds
                         ∧ np_argmin ds = Ret i).
  { intros (ds & Hds%mapM_Ret_Forall2 & Hi)%Outcome_bind_Ret. eauto. }
  destruct (cls self); [discriminate|exact Hgen|exact Hgen].
Qed.

(** X1: an answer of [find_nearest] is an index of the table it was given,
    whatever the distances are. *)
Theorem find_nearest_index_valid (ext : External) (self : RRT) (Vt : Matrix)
    (x : Config) (i : Z) :
  find_nearest ext self Vt x = Ret i →
  0 ≤ i < len Vt ∧ ∃ row, getitem Vt i = Ret row.
Proof.
  intros Hi%find_nearest_range. split; [done|].
  assert (is_Some (Vt !! Z.to_nat i)) as [row Hrow].
  { apply lookup_lt_is_Some. unfold len in Hi. lia. }
  exists row. apply getitem_nonneg; [lia|done].
Qed.

Lemma find_nearest_index_valid_witness :
  find_nearest ext0 scenario_A
    [[0%float; 0%float]; [3%float; 4%float]; [1%float; 1%float]]
    [1%float; 1%float] = Ret 2
  ∧ 0 ≤ 2 < 3.
Proof.
  split; [reflexivity|].
  apply (find_nearest_index_valid ext0 scenario_A
           [[0%float; 0%float]; [3%float; 4%float]; [1%float; 1%float]]
           [1%float; 1%float] 2 eq_refl).
Defined.

(** X2: when no distance is a NaN, the node [find_nearest] answers is a
    nearest one, and the first of them: its distance to [x] is at most that
    of every node and strictly below that of every node before it. *)
Theorem find_nearest_first_minimum (ext : External) (self : RRT)
    (Vt : Matrix) (x : Config) (i : Z) :
  find_nearest ext self Vt x = Ret i →
  (∀ row d, row ∈ Vt → distance ext self row x = Ret d →
            PrimFloat.is_nan d = false) →
  ∃ k row_i d_i,
    i = Z.of_nat k ∧ Vt !! k = Some row_i
    ∧ distance ext self row_i x = Ret d_i
    ∧ ∀ j row_j d_j,
        Vt !! j = Some row_j → distance ext self row_j x = Ret d_j →
        PrimFloat.leb d_i d_j = true
        ∧ ((j < k)%nat → PrimFloat.ltb d_i d_j = true).
Proof.
  intros (ds & Hds & Hi)%find_nearest_Ret Hnn.
  assert (Forall (λ d, PrimFloat.is_nan d = false) ds) as Hds_nn.
  { apply Forall_lookup. intros j d Hd.
    destruct (Forall2_lookup_r _ _ _ _ _ Hds Hd) as (row & Hrow & Hdist).
    eapply Hnn; [|done]. by eapply list_elem_of_lookup_2. }
  destruct ds as [|d0 ds]; [discriminate|]. simpl in Hi. injection Hi as <-.
  destruct (argmin_from_first_min ds [d0] d0 0 Hds_nn eq_refl)
    as (k & d_i & Hk & Hd_i & Hle & Hlt).
  { intros [|j] dj; [|done]. intros [= <-].
    apply leb_refl. by inversion Hds_nn. }
  { intros j dj Hj. lia. }
  simpl in Hk, Hd_i, Hle, Hlt.
  destruct (Forall2_lookup_r _ _ _ _ _ Hds Hd_i) as (row_i & Hrow_i & Hdist_i).
  exists k, row_i, d_i. split_and!; [done..|].
  intros j row_j d_j Hrow_j Hdist_j.
  destruct (Forall2_lookup_l _ _ _ _ _ Hds Hrow_j) as (d_j' & Hd_j & Hdist_j').
  rewrite Hdist_j in Hdist_j'. injection Hdist_j' as <-.
  split; [by eapply Hle|]. intros Hjk. by eapply Hlt.
Qed.

Lemma find_nearest_first_minimum_witness :
  ∃ d_i,
    distance ext0 scenario_A [1%float; 1%float] [1%float; 1%float] = Ret d_i
    ∧ ∀ j row_j d_j,
        [[0%float; 0%float]; [3%float; 4%float]; [1%float; 1%float];
         [1%float; 1%float]] !! j = Some row_j →
        distance ext0 scenario_A row_j [1%float; 1%float] = Ret d_j →
        PrimFloat.leb d_i d_j = true
        ∧ ((j < 2)%nat → PrimFloat.ltb d_i d_j = true).
Proof.
  destruct (find_nearest_first_minimum ext0 scenario_A
              [[0%float; 0%float]; [3%float; 4%float]; [1%float; 1%float];
               [1%float; 1%float]]
              [1%float; 1%float] 2 eq_refl)
    as (k & row_i & d_i & Hk & Hrow_i & Hd_i & Hmin).
  { intros row d Hin Hd.
    repeat (apply elem_of_cons in Hin as [->|Hin];
            [vm_compute in Hd; injection Hd as <-; reflexivity|]).
    by apply elem_of_nil in Hin. }
  assert (k = 2%nat) as -> by lia.
  injection Hrow_i as <-. exists d_i. split; [exact Hd_i|exact Hmin].
Defined.

(** X3: a NaN among the distances wins: [find_nearest] answers the first
    node whose distance to [x] is a NaN. *)
Theorem find_nearest_first_nan (ext : External) (self : RRT) (Vt : Matrix)
    (x : Config) (ds : list float) (k : nat) (d_k : float) :
  cls self ≠ RRT_base →
  Forall2 (λ row d, distance ext self row x = Ret d) Vt ds →
  ds !! k = Some d_k → PrimFloat.is_nan d_k = true →
  (∀ j d_j, (j < k)%nat → ds !! j = Some d_j → PrimFloat.is_nan d_j = false) →
  find_nearest ext self Vt x = Ret (Z.of_nat k).
Proof.
  intros Hcls Hds Hk Hnan Hbefore.
  assert (find_nearest ext self Vt x
          = mapM (λ row, distance ext self row x) Vt ≫= np_argmin) as ->.
  { unfold find_nearest. by destruct (cls self). }
  rewrite (Forall2_mapM_Ret _ _ _ Hds). simpl.
  apply list_elem_of_split_length in Hk as (d1 & d2 & -> & Hlen).
  assert (Forall (λ y, PrimFloat.is_nan y = false) d1) as Hd1.
  { apply Forall_lookup. intros j d_j Hj. eapply (Hbefore j).
    - apply lookup_lt_Some in Hj. lia.
    - by apply lookup_app_l_Some. }
  destruct d1 as [|y d1]; simpl.
  - rewrite argmin_from_nan by done. simpl in Hlen. by subst.
  - inversion Hd1; subst.
    rewrite argmin_from_first_nan by done. unfold len. simpl.
    f_equal. lia.
Qed.

Lemma find_nearest_first_nan_witness :
  find_nearest ext0 scenario_A
    [[0%float; 0%float]; [nan; 0%float]; [1%float; 1%float]; [nan; nan]]
    [1%float; 1%float] = Ret 1.
Proof.
  apply (find_nearest_first_nan ext0 scenario_A
           [[0%float; 0%float]; [nan; 0%float]; [1%float; 1%float]; [nan; nan]]
           [1%float; 1%float]
           [0x1.6a09e667f3bcdp+0%float; nan; 0%float; nan] 1 nan).
  - discriminate.
  - repeat constructor.
  - reflexivity.
  - reflexivity.
  - intros [|j] d_j Hj; [|lia]. intros [= <-]. reflexivity.
Defined.

(** ** One iteration, seen from the tree *)

Lemma getitem_nonneg_Ret {A : Type} (l : list A) (i : Z) (a : A) :
  0 ≤ i → getitem l i = Ret a → l !! Z.to_nat i = Some a ∧ i < len l.
Proof.
  intros Hi. unfold getitem.
  destruct (norm_index l i) as [j| |] eqn:Hj; simpl; try discriminate.
  apply norm_index_Ret in Hj as (Hr & -> & _).
  destruct (i <? 0) eqn:Hneg; [lia|].
  destruct (l !! Z.to_nat i) as [b|]; [|discriminate].
  intros [= ->]. split; [done|lia].
Qed.

Lemma set_row_stored (M M' : Matrix) (i : Z) (x : Config) :
  0 ≤ i → set_row M i x = Ret M' →
  ∃ old row,
    M !! Z.to_nat i = Some old ∧ M' = <[Z.to_nat i := row]> M
    ∧ stored_as x (length old) row.
Proof.
  intros Hi. unfold set_row, stored_as.
  destruct (norm_index M i) as [j| |] eqn:Hj; simpl; try discriminate.
  apply norm_index_Ret in Hj as (Hr & -> & _).
  destruct (i <? 0) eqn:Hneg; [lia|].
  destruct (M !! Z.to_nat i) as [old|]; [|discriminate].
  destruct (Nat.eqb (length x) (length old)) eqn:Hlen.
  - apply Nat.eqb_eq in Hlen. intros [= <-]. exists old, x.
    split_and!; [done|done|by left].
  - destruct x as [|v [|]]; try discriminate.
    intros [= <-]. exists old, (replicate (length old) v).
    split_and!; [done|done|right; by exists v].
Qed.

Lemma stored_as_length (x row : Config) (width : nat) :
  stored_as x width row → length row = width.
Proof.
  intros [[-> Hlen]|(v & -> & ->)]; [done|]. by rewrite length_replicate.
Qed.

(** An iteration that returns left the tree alone, or wrote a steered and
    accepted configuration into the first free slot, with the index of the
    node it was steered from as its parent. *)
Lemma iteration_step (ext : External) (fuel : nat) (self : RRT)
    (eps goal_bias : float) (t t' : Tree) (g g' : RandomState)
    (found : option (list Config)) :
  tree_wf t →
  iteration ext fuel self eps goal_bias t g = (Ret (t', found), g') →
  (t' = t ∧ found = None)
  ∨ ∃ idx x_near x_new old row,
      0 ≤ idx < n t
      ∧ V t !! Z.to_nat idx = Some x_near
      ∧ is_free_motion ext self (obstacles self) x_near x_new = Ret true
      ∧ V t !! Z.to_nat (n t) = Some old
      ∧ stored_as x_new (length old) row
      ∧ t' = {| V := <[Z.to_nat (n t) := row]> (V t);
                P := <[Z.to_nat (n t) := idx]> (P t);
                n := n t + 1 |}.
Proof.
  intros [[Hn HVP] _] (idx & x_near & x_new & Hp & He)%iteration_Ret.
  apply propose_Ret in Hp as (x_rand & _ & Hidx%find_nearest_range & Hnear & _).
  rewrite slice_to_len in Hidx by lia.
  apply extend_Ret in He
    as [(_ & -> & ->)|(Hfree & V' & P' & HV & HP & -> & _)]; [by left|].
  right.
  apply getitem_nonneg_Ret in Hnear as [Hnear _]; [|lia].
  apply set_row_stored in HV as (old & row & Hold & -> & Hrow); [|lia].
  apply setitem_Ret in HP as (_ & ->); [|lia].
  exists idx, x_near, x_new, old, row. done.
Qed.

(** A property of trees that every iteration preserves holds after any
    number of iterations. *)
Lemma loop_preserves (ext : External) (fuel : nat) (self : RRT)
    (eps goal_bias : float) (Inv : Tree → Prop) :
  (∀ t g t' found g',
     tree_wf t → Inv t →
     iteration ext fuel self eps goal_bias t g = (Ret (t', found), g') →
     Inv t') →
  ∀ iters t g r g',
    tree_wf t → Inv t →
    loop ext iters fuel self eps goal_bias t g = (Ret r, g') →
    Inv (tree r).
Proof.
  intros Hstep iters. induction iters as [|iters IH]; intros t g r g' Hwf Hinv.
  - simpl. by intros [= <- _].
  - simpl. intros ([t' found] & g1 & Hit & Hrest)%Rand_bind_Ret.
    pose proof (Hstep _ _ _ _ _ Hwf Hinv Hit) as Hinv'.
    pose proof (iteration_wf _ _ _ _ _ _ _ _ _ _ Hwf Hit) as Hwf'.
    destruct found as [path|].
    + by injection Hrest as <- _.
    + by eapply IH.
Qed.

Lemma grow_preserves (ext : External) (fuel : nat) (self : RRT)
    (eps : float) (max_iters : Z) (goal_bias : float) (Inv : Tree → Prop) :
  (∀ t0, init_tree self max_iters = Ret t0 → Inv t0) →
  (∀ t g t' found g',
     tree_wf t → Inv t →
     iteration ext fuel self eps goal_bias t g = (Ret (t', found), g') →
     Inv t') →
  ∀ g r g',
    grow ext fuel self eps max_iters goal_bias g = (Ret r, g') →
    Inv (tree r).
Proof.
  intros Hinit Hstep g r g'. unfold grow.
  intros (t0 & g1 & [Ht0 ->]%lift_Ret & Hloop)%Rand_bind_Ret.
  eapply loop_preserves; [exact Hstep|by eapply init_tree_wf|by apply Hinit|done].
Qed.

(** The initial tables. *)
Lemma init_tree_tables (self : RRT) (max_iters : Z) (t0 : Tree) :
  init_tree self max_iters = Ret t0 →
  1 ≤ max_iters
  ∧ t0 = {| V := <[0%nat := x_init self]>
                   (replicate (Z.to_nat max_iters)
                      (replicate (length (x_init self)) 0%float));
            P := replicate (Z.to_nat max_iters) (-1);
            n := 1 |}.
Proof.
  unfold init_tree, np_zeros, np_minus_ones.
  destruct (max_iters <? 0) eqn:Hneg; simpl; [discriminate|].
  intros (V1 & HV & [= <-])%Outcome_bind_Ret.
  apply set_row_stored in HV as (old & row & Hold & -> & Hrow); [|lia].
  change (Z.to_nat 0) with 0%nat in *.
  apply lookup_replicate in Hold as [-> Hlt].
  split; [lia|]. f_equal.
  destruct Hrow as [[-> _]|(v & Hv & ->)]; [done|].
  rewrite length_replicate. by rewrite Hv.
Qed.

(** ** What a run keeps true of its tree *)

Lemma run_inv_init (ext : External) (self : RRT) (max_iters : Z) (t0 : Tree) :
  init_tree self max_iters = Ret t0 → run_inv ext self max_iters t0.
Proof.
  intros [Hm ->]%init_tree_tables.
  unfold run_inv, rooted, shaped, slots_fresh, edges_free, len. cbn [V P n].
  rewrite length_insert, !length_replicate. split_and!.
  - apply list_lookup_insert_eq. rewrite length_replicate. lia.
  - lia.
  - lia.
  - apply Forall_insert; [|done].
    apply Forall_replicate. by rewrite length_replicate.
  - intros i Hi. split.
    + apply lookup_replicate_2. lia.
    + rewrite list_lookup_insert_ne by lia. apply lookup_replicate_2. lia.
  - intros i Hi Hin. lia.
Qed.

Lemma run_inv_step (ext : External) (fuel : nat) (self : RRT)
    (eps goal_bias : float) (m : Z) (t t' : Tree) (g g' : RandomState)
    (found : option (list Config)) :
  tree_wf t → run_inv ext self m t →
  iteration ext fuel self eps goal_bias t g = (Ret (t', found), g') →
  run_inv ext self m t'.
Proof.
  intros Hwf (Hroot & (HlenV & HlenP & Hrows) & Hfresh & Hedges) Hit.
  pose proof Hwf as [[Hn HVP] _].
  apply (iteration_step _ _ _ _ _ _ _ _ _ _ Hwf) in Hit
    as [[-> _]|(idx & x_near & x_new & old & row
                & Hidx & Hnear & Hfree & Hold & Hrow & ->)].
  { done. }
  assert (length old = length (x_init self)) as Hwidth.
  { by eapply (proj1 (Forall_lookup _ _) Hrows). }
  rewrite Hwidth in Hrow.
  pose proof (lookup_lt_Some _ _ _ Hold) as Hlt.
  unfold run_inv, rooted, shaped, slots_fresh, edges_free, len in *.
  cbn [V P n]. rewrite !length_insert. split_and!.
  - rewrite list_lookup_insert_ne by lia. done.
  - done.
  - done.
  - apply Forall_insert; [done|]. by eapply stored_as_length.
  - intros i Hi. rewrite !list_lookup_insert_ne by lia. apply Hfresh. lia.
  - intros i Hi Hin. destruct (decide (i = Z.to_nat (n t))) as [->|Hne].
    + exists idx, x_near, x_new, row.
      rewrite !list_lookup_insert_eq by lia.
      rewrite list_lookup_insert_ne by lia.
      split_and!; [done|lia|lia|done..].
    + destruct (Hedges i Hi) as (p & xa & xb & r & Hp & Hpi & Hxa & Hf & Hr & Hs);
        [lia|].
      exists p, xa, xb, r.
      rewrite !list_lookup_insert_ne by lia.
      split_and!; (done || lia).
Qed.

Lemma grow_run_inv (ext : External) (fuel : nat) (self : RRT) (eps : float)
    (max_iters : Z) (goal_bias : float) (g g' : RandomState) (r : Result) :
  grow ext fuel self eps max_iters goal_bias g = (Ret r, g') →
  tree_wf (tree r) ∧ run_inv ext self max_iters (tree r).
Proof.
  intros Hgrow. split.
  - eapply (grow_preserves ext fuel self eps max_iters goal_bias tree_wf);
      [apply init_tree_wf| |exact Hgrow].
    intros t g0 t' found g0' Hwf _. by apply iteration_wf.
  - eapply (grow_preserves ext fuel self eps max_iters goal_bias
              (run_inv ext self max_iters));
      [apply run_inv_init| |exact Hgrow].
    intros t g0 t' found g0'. apply run_inv_step.
Qed.

(** X4: the loop only appends.  After any number of iterations the nodes
    and parents the tree had are unchanged, and the tree has grown by at
    most one node per iteration. *)
Theorem loop_append_only (ext : External) (iters fuel : nat) (self : RRT)
    (eps goal_bias : float) (t : Tree) (g g' : RandomState) (r : Result) :
  tree_wf t →
  loop ext iters fuel self eps goal_bias t g = (Ret r, g') →
  n t ≤ n (tree r) ≤ n t + Z.of_nat iters
  ∧ ∀ i, Z.of_nat i < n t →
      V (tree r) !! i = V t !! i ∧ P (tree r) !! i = P t !! i.
Proof.
  revert t g. induction iters as [|iters IH]; intros t g Hwf.
  - simpl. intros [= <- _]. simpl. split; [lia|done].
  - simpl. intros ([t' found] & g1 & Hit & Hrest)%Rand_bind_Ret.
    pose proof (iteration_wf _ _ _ _ _ _ _ _ _ _ Hwf Hit) as Hwf'.
    assert (n t ≤ n t' ≤ n t + 1
            ∧ ∀ i, Z.of_nat i < n t →
                V t' !! i = V t !! i ∧ P t' !! i = P t !! i) as [Hn Hsame].
    { apply (iteration_step _ _ _ _ _ _ _ _ _ _ Hwf) in Hit
        as [[-> _]|(idx & x_near & x_new & old & row & _ & _ & _ & _ & _ & ->)];
        [split; [lia|done]|].
      cbn [V P n]. split; [lia|]. intros i Hi.
      rewrite !list_lookup_insert_ne by lia. done. }
    destruct found as [path|].
    + injection Hrest as <- _. cbn [tree]. split; [lia|done].
    + apply IH in Hrest as [Hn' Hsame']; [|done]. split; [lia|].
      intros i Hi. destruct (Hsame i Hi) as [<- <-]. apply Hsame'. lia.
Qed.

Lemma loop_append_only_witness :
  let t := {| V := [[0%float; 0%float]; [0%float; 0%float]; [0%float; 0%float]];
              P := [-1; -1; -1]; n := 1 |} in
  ∃ r g',
    loop ext0 2 2 scenario_A 2%float 0%float t (stream [0.75%float]) = (Ret r, g')
    ∧ n (tree r) = 3
    ∧ V (tree r) !! 0%nat = Some [0%float; 0%float].
Proof.
  intros t.
  assert (∃ r g', loop ext0 2 2 scenario_A 2%float 0%float t
                    (stream [0.75%float]) = (Ret r, g')) as (r & g' & Hloop).
  { eexists _, _. vm_compute. reflexivity. }
  assert (tree_wf t) as Hwf.
  { apply (init_tree_wf scenario_A 3). reflexivity. }
  destruct (loop_append_only ext0 2 2 scenario_A 2%float 0%float t
              (stream [0.75%float]) g' r Hwf Hloop) as [_ Hsame].
  exists r, g'. split; [exact Hloop|]. split.
  - vm_compute in Hloop. injection Hloop as <- _. reflexivity.
  - destruct (Hsame 0%nat) as [-> _]; [simpl; lia|reflexivity].
Defined.

(** X5: the root of every tree that [solve] grows is [x_init], entry for
    entry: row 0 is written once and never again. *)
Theorem grow_root_is_x_init (ext : External) (fuel : nat) (self : RRT)
    (eps : float) (max_iters : Z) (goal_bias : float) (g g' : RandomState)
    (r : Result) :
  grow ext fuel self eps max_iters goal_bias g = (Ret r, g') →
  V (tree r) !! 0%nat = Some (x_init self)
  ∧ getitem (V (tree r)) 0 = Ret (x_init self).
Proof.
  intros (_ & Hroot & _)%grow_run_inv. split; [exact Hroot|].
  by apply getitem_nonneg.
Qed.

Lemma grow_root_is_x_init_witness :
  ∃ r g',
    grow ext0 2 scenario_A 2%float 10 1%float (stream [0.25%float]) = (Ret r, g')
    ∧ V (tree r) !! 0%nat = Some [0%float; 0%float].
Proof.
  assert (∃ r g', grow ext0 2 scenario_A 2%float 10 1%float
                    (stream [0.25%float]) = (Ret r, g')) as (r & g' & Hgrow).
  { eexists _, _. vm_compute. reflexivity. }
  exists r, g'. split; [exact Hgrow|].
  apply (grow_root_is_x_init ext0 2 scenario_A 2%float 10 1%float
           (stream [0.25%float]) g' r Hgrow).
Defined.

(** X6: the tables keep the shape they were allocated with: [max_iters]
    rows each, and every row of [V] has the dimension of [x_init], also
    where a shorter configuration was broadcast into it. *)
Theorem grow_tables_keep_shape (ext : External) (fuel : nat) (self : RRT)
    (eps : float) (max_iters : Z) (goal_bias : float) (g g' : RandomState)
    (r : Result) :
  grow ext fuel self eps max_iters goal_bias g = (Ret r, g') →
  len (V (tree r)) = max_iters ∧ len (P (tree r)) = max_iters
  ∧ ∀ i row, V (tree r) !! i = Some row → length row = length (x_init self).
Proof.
  intros (_ & _ & (HV & HP & Hrows) & _)%grow_run_inv.
  split_and!; [done..|]. intros i row Hrow.
  by eapply (proj1 (Forall_lookup _ _) Hrows).
Qed.

Lemma grow_tables_keep_shape_witness :
  ∃ r g',
    grow ext0 2 scenario_A 2%float 10 1%float (stream [0.25%float]) = (Ret r, g')
    ∧ len (V (tree r)) = 10 ∧ len (P (tree r)) = 10.
Proof.
  assert (∃ r g', grow ext0 2 scenario_A 2%float 10 1%float
                    (stream [0.25%float]) = (Ret r, g')) as (r & g' & Hgrow).
  { eexists _, _. vm_compute. reflexivity. }
  destruct (grow_tables_keep_shape ext0 2 scenario_A 2%float 10 1%float
              (stream [0.25%float]) g' r Hgrow) as (HV & HP & _).
  exists r, g'. split_and!; [exact Hgrow|exact HV|exact HP].
Defined.

(** X7: every node of the tree but the root was steered to from its parent,
    an older node, along a motion that [is_free_motion] accepted; the row
    holds that configuration as the assignment stored it. *)
Theorem grow_edges_are_free_motions (ext : External) (fuel : nat) (self : RRT)
    (eps : float) (max_iters : Z) (goal_bias : float) (g g' : RandomState)
    (r : Result) :
  grow ext fuel self eps max_iters goal_bias g = (Ret r, g') →
  ∀ i, (0 < i)%nat → Z.of_nat i < n (tree r) →
    ∃ p x_near x_new row,
      P (tree r) !! i = Some p ∧ 0 ≤ p < Z.of_nat i
      ∧ V (tree r) !! Z.to_nat p = Some x_near
      ∧ is_free_motion ext self (obstacles self) x_near x_new = Ret true
      ∧ V (tree r) !! i = Some row
      ∧ stored_as x_new (length (x_init self)) row.
Proof. by intros (_ & _ & _ & _ & Hedges)%grow_run_inv. Qed.

Lemma grow_edges_are_free_motions_witness :
  ∃ x_new,
    grow ext0 2 scenario_A 2%float 10 1%float (stream [0.25%float])
    = (Ret scenario_A_result, snd (random_sample (stream [0.25%float])))
    ∧ is_free_motion ext0 scenario_A (obstacles scenario_A)
        [0%float; 0%float] x_new = Ret true
    ∧ stored_as x_new 2 [1%float; 1%float].
Proof.
  assert (grow ext0 2 scenario_A 2%float 10 1%float (stream [0.25%float])
          = (Ret scenario_A_result, snd (random_sample (stream [0.25%float]))))
    as Hgrow by (vm_compute; reflexivity).
  destruct (grow_edges_are_free_motions ext0 2 scenario_A 2%float 10 1%float
              (stream [0.25%float]) _ scenario_A_result Hgrow 1%nat)
    as (p & x_near & x_new & row & Hp & Hrange & Hnear & Hfree & Hrow & Hstored).
  { lia. }
  { reflexivity. }
  injection Hp as <-. injection Hnear as <-. injection Hrow as <-.
  exists x_new. split_and!; [exact Hgrow|exact Hfree|exact Hstored].
Defined.

(** X8: the slots past the tree are never written: in every tree that
    [solve] grows, the rows from [n] on still hold the sentinel [-1] and
    the zeros they were allocated with. *)
Theorem grow_unused_slots_untouched (ext : External) (fuel : nat)
    (self : RRT) (eps : float) (max_iters : Z) (goal_bias : float)
    (g g' : RandomState) (r : Result) :
  grow ext fuel self eps max_iters goal_bias g = (Ret r, g') →
  ∀ i, n (tree r) ≤ Z.of_nat i < max_iters →
    P (tree r) !! i = Some (-1)
    ∧ V (tree r) !! i = Some (replicate (length (x_init self)) 0%float).
Proof.
  intros (_ & _ & (_ & HP & _) & Hfresh & _)%grow_run_inv i Hi.
  apply Hfresh. lia.
Qed.

Lemma grow_unused_slots_untouched_witness :
  grow ext0 2 scenario_A 2%float 10 1%float (stream [0.25%float])
  = (Ret scenario_A_result, snd (random_sample (stream [0.25%float])))
  ∧ P (tree scenario_A_result) !! 9%nat = Some (-1)
  ∧ V (tree scenario_A_result) !! 9%nat = Some [0%float; 0%float].
Proof.
  assert (grow ext0 2 scenario_A 2%float 10 1%float (stream [0.25%float])
          = (Ret scenario_A_result, snd (random_sample (stream [0.25%float]))))
    as Hgrow by (vm_compute; reflexivity).
  split; [exact Hgrow|].
  apply (grow_unused_slots_untouched ext0 2 scenario_A 2%float 10 1%float
           (stream [0.25%float]) _ scenario_A_result Hgrow 9%nat).
  simpl. lia.
Defined.

(** ** The edges that [plot_tree] draws *)

Lemma tree_edges_from_app (Vt : Matrix) (Pt : list Z) (l1 l2 : list nat) :
  tree_edges_from Vt Pt (l1 ++ l2)
  = e1 ← tree_edges_from Vt Pt l1;
    e2 ← tree_edges_from Vt Pt l2;
    Ret (e1 ++ e2).
Proof.
  induction l1 as [|i l1 IH]; simpl.
  - by destruct (tree_edges_from Vt Pt l2).
  - destruct (getitem Pt (Z.of_nat i)) as [p| |]; simpl; [|done..].
    destruct (0 <=? p); [|done].
    destruct (getitem Vt p) as [a| |]; simpl; [|done..].
    destruct (getitem Vt (Z.of_nat i)) as [b| |]; simpl; [|done..].
    rewrite IH.
    destruct (tree_edges_from Vt Pt l1) as [e1| |]; simpl; [|done..].
    by destruct (tree_edges_from Vt Pt l2).
Qed.

Lemma getitem_of_nat {A : Type} (l : list A) (i : nat) (a : A) :
  l !! i = Some a → getitem l (Z.of_nat i) = Ret a.
Proof.
  intros Hi. apply getitem_nonneg; [lia|]. by rewrite Nat2Z.id.
Qed.

Lemma tree_edges_from_sentinels (Vt : Matrix) (Pt : list Z) (ixs : list nat) :
  (∀ i, i ∈ ixs → Pt !! i = Some (-1)) →
  tree_edges_from Vt Pt ixs = Ret [].
Proof.
  induction ixs as [|i ixs IH]; intros Hall; simpl; [done|].
  rewrite (getitem_of_nat Pt i (-1)) by (apply Hall; left). simpl.
  apply IH. intros j Hj. apply Hall. by right.
Qed.

Lemma tree_edges_from_seq (Vt : Matrix) (Pt : list Z) (c s : nat) :
  (∀ k, (k < c)%nat →
     ∃ p a b, Pt !! (s + k)%nat = Some p ∧ 0 ≤ p
              ∧ Vt !! Z.to_nat p = Some a ∧ Vt !! (s + k)%nat = Some b) →
  ∃ edges,
    tree_edges_from Vt Pt (seq s c) = Ret edges
    ∧ length edges = c
    ∧ ∀ k, (k < c)%nat →
        ∃ p a b, Pt !! (s + k)%nat = Some p
                 ∧ Vt !! Z.to_nat p = Some a ∧ Vt !! (s + k)%nat = Some b
                 ∧ edges !! k = Some (a, b).
Proof.
  revert s. induction c as [|c IH]; intros s Hall; simpl.
  - exists []. split_and!; [done..|]. intros k Hk. lia.
  - destruct (Hall 0%nat) as (p & a & b & Hp & Hp0 & Ha & Hb); [lia|].
    rewrite Nat.add_0_r in Hp, Hb.
    destruct (IH (S s)) as (edges & Hedges & Hlen & Hk).
    { intros k Hk. destruct (Hall (S k)) as (p' & a' & b' & H'); [lia|].
      exists p', a', b'. by rewrite Nat.add_succ_comm. }
    exists ((a, b) :: edges).
    rewrite (getitem_of_nat Pt s p Hp). simpl.
    destruct (0 <=? p) eqn:Hle; [|lia].
    rewrite (getitem_nonneg Vt p a Hp0 Ha). simpl.
    rewrite (getitem_of_nat Vt s b Hb). simpl.
    rewrite Hedges. simpl. split_and!; [done|by rewrite Hlen|].
    intros [|k] Hlt.
    + exists p, a, b. by rewrite Nat.add_0_r.
    + destruct (Hk k) as (p' & a' & b' & H1 & H2 & H3 & H4); [lia|].
      exists p', a', b'. by rewrite <- Nat.add_succ_comm.
Qed.

(** X9: [plot_tree] draws the tree and nothing else.  On the tables that
    [solve] hands over, the comprehension of [GeometricRRT.plot_tree]
    raises nothing and yields exactly [n - 1] segments, the [k]-th joining
    node [k + 1] to its parent: the sentinel [-1] keeps the root and the
    unused slots out.  [DubinsRRT.plot_tree] draws the same [n - 1] edges,
    each as the polyline of its sampled curve. *)
Theorem plot_tree_draws_the_tree_edges (ext : External) (fuel : nat)
    (self : RRT) (eps : float) (max_iters : Z) (goal_bias : float)
    (g g' : RandomState) (r : Result) :
  grow ext fuel self eps max_iters goal_bias g = (Ret r, g') →
  ∃ edges,
    tree_edges (V (tree r)) (P (tree r)) = Ret edges
    ∧ (cls self = GeometricRRT →
       plot_tree_segments ext self (V (tree r)) (P (tree r)) = Ret edges)
    ∧ (∀ radius, cls self = DubinsRRT radius →
       plot_tree_segments ext self (V (tree r)) (P (tree r))
       = Ret (concat (map (λ '(a, b),
                consecutive
                  (fst (path_sample ext a b radius
                          (PrimFloat.mul radius plot_resolution)) ++ [b]))
              edges)))
    ∧ Z.of_nat (length edges) = n (tree r) - 1
    ∧ ∀ k, Z.of_nat k < n (tree r) - 1 →
        ∃ p a b,
          P (tree r) !! S k = Some p
          ∧ V (tree r) !! Z.to_nat p = Some a ∧ V (tree r) !! S k = Some b
          ∧ edges !! k = Some (a, b).
Proof.
  intros ([[Hn HVP] [Hroot Hpar]]
          & _ & (HlenV & HlenP & _) & Hfresh & _)%grow_run_inv.
  set (t := tree r) in *. unfold len in *.
  set (nn := Z.to_nat (n t)).
  assert (seq 0 (length (V t))
          = [0%nat] ++ seq 1 (nn - 1) ++ seq nn (length (V t) - nn)) as Hseq.
  { replace (length (V t)) with (1 + ((nn - 1) + (length (V t) - nn)))%nat
      at 1 by lia.
    rewrite seq_app, seq_app. simpl. do 3 f_equal. lia. }
  destruct (tree_edges_from_seq (V t) (P t) (nn - 1) 1) as (edges & He & Hlen & Hk).
  { intros k Hk. destruct (Hpar (Z.of_nat (1 + k))) as (p & Hp & Hrange); [lia|].
    rewrite Nat2Z.id in Hp.
    assert (is_Some (V t !! Z.to_nat p)) as [a Ha].
    { apply lookup_lt_is_Some. lia. }
    assert (is_Some (V t !! (1 + k)%nat)) as [b Hb].
    { apply lookup_lt_is_Some. lia. }
    exists p, a, b. split_and!; [done|lia|done..]. }
  assert (tree_edges (V t) (P t) = Ret edges) as Hedges.
  { unfold tree_edges. rewrite Hseq, !tree_edges_from_app.
    rewrite (tree_edges_from_sentinels _ _ [0%nat]).
    2:{ intros i ->%list_elem_of_singleton. exact Hroot. }
    simpl. rewrite He. simpl.
    rewrite tree_edges_from_sentinels; [simpl; by rewrite app_nil_r|].
    intros i [Hlo Hhi]%elem_of_seq. apply Hfresh. unfold nn, len in *. lia. }
  exists edges. split_and!; [done| | |lia|].
  - intros Hcls. unfold plot_tree_segments. by rewrite Hcls.
  - intros radius Hcls. unfold plot_tree_segments. rewrite Hcls, Hedges. done.
  - intros k Hlt. destruct (Hk k) as (p & a & b & H1 & H2 & H3 & H4); [lia|].
    exists p, a, b. done.
Qed.

Lemma plot_tree_draws_the_tree_edges_witness :
  grow ext0 2 scenario_A 2%float 10 1%float (stream [0.25%float])
  = (Ret scenario_A_result, snd (random_sample (stream [0.25%float])))
  ∧ ∃ edges,
      plot_tree_segments ext0 scenario_A (V (tree scenario_A_result))
        (P (tree scenario_A_result)) = Ret edges
      ∧ Z.of_nat (length edges) = 1.
Proof.
  assert (grow ext0 2 scenario_A 2%float 10 1%float (stream [0.25%float])
          = (Ret scenario_A_result, snd (random_sample (stream [0.25%float]))))
    as Hgrow by (vm_compute; reflexivity).
  split; [exact Hgrow|].
  destruct (plot_tree_draws_the_tree_edges ext0 2 scenario_A 2%float 10
              1%float (stream [0.25%float]) _ scenario_A_result Hgrow)
    as (edges & _ & Hplot & _ & Hlen & _).
  exists edges. split; [exact (Hplot eq_refl)|exact Hlen].
Defined.

(** ** NaN in [x_init] and the end of the reconstruction *)

Lemma array_equal_no_nan_r (a b : Config) :
  array_equal a b = true → Forall (λ v, PrimFloat.is_nan v = false) b.
Proof.
  revert b. induction a as [|x a IH]; intros [|y b]; simpl; try done.
  intros [Hxy Hab]%andb_prop. constructor; [|by apply IH].
  by apply eqb_true_not_nan in Hxy as [_ ?].
Qed.

Lemma array_equal_refl (a : Config) :
  Forall (λ v, PrimFloat.is_nan v = false) a → array_equal a a = true.
Proof.
  induction 1 as [|x a Hx _ IH]; simpl; [done|].
  rewrite IH, andb_true_r. unfold PrimFloat.is_nan in Hx.
  by destruct (PrimFloat.eqb x x).
Qed.

(** The [while] loop only ever returns after a row compared equal to
    [init]. *)
Lemma walk_Ret_chain (fuel : nat) (Vt : Matrix) (Pt : list Z) (init : Config)
    (idx : Z) (acc path : list Config) :
  walk fuel Vt Pt init idx acc = Ret path →
  ∃ visited j, chain Vt Pt init idx visited j ∧ path = acc ++ visited.
Proof.
  revert idx acc. induction fuel as [|fuel IH]; intros idx acc; simpl;
    [discriminate|].
  destruct (getitem Vt idx) as [row| |] eqn:Hrow; simpl; [|discriminate..].
  destruct (array_equal row init) eqn:Heq.
  - intros [= <-]. exists [], idx. split; [by eapply chain_stop|].
    by rewrite app_nil_r.
  - destruct (getitem Pt idx) as [p| |] eqn:Hp; simpl; [|discriminate..].
    destruct (getitem Vt p) as [prow| |] eqn:Hprow; simpl; [|discriminate..].
    intros (visited & j & Hch & ->)%IH.
    exists (prow :: visited), j. split; [by eapply chain_step|].
    by rewrite <- app_assoc.
Qed.

Lemma chain_init_no_nan (Vt : Matrix) (Pt : list Z) (init : Config) (i j : Z)
    (visited : list Config) :
  chain Vt Pt init i visited j →
  Forall (λ v, PrimFloat.is_nan v = false) init.
Proof.
  induction 1 as [i row _ Heq|]; [|done]. by eapply array_equal_no_nan_r.
Qed.

(** On a well-formed tree rooted at [init], the chain from a node climbs
    through older and older nodes: it passes at most [i] rows, each the row
    of a node before [i]. *)
Lemma chain_climbs (t : Tree) (init : Config) (i j : Z)
    (visited : list Config) :
  tree_wf t → V t !! 0%nat = Some init →
  chain (V t) (P t) init i visited j →
  0 ≤ i < n t →
  Z.of_nat (length visited) ≤ i
  ∧ ∀ c, c ∈ visited → ∃ k, 0 ≤ k < i ∧ V t !! Z.to_nat k = Some c.
Proof.
  intros [[Hn HVP] [Hroot Hpar]] HV0.
  induction 1 as [i row Hrow Heq|i p j row prow visited Hrow Hne Hp Hprow Hch IH];
    intros Hi.
  - simpl. split; [lia|]. intros c Hc. by apply elem_of_nil in Hc.
  - apply getitem_nonneg_Ret in Hrow as [Hrow _]; [|lia].
    apply getitem_nonneg_Ret in Hp as [Hp _]; [|lia].
    assert (i ≠ 0) as Hnz.
    { intros ->. change (Z.to_nat 0) with 0%nat in Hrow.
      rewrite HV0 in Hrow. injection Hrow as <-.
      pose proof (chain_init_no_nan _ _ _ _ _ _ Hch) as Hnn.
      apply array_equal_refl in Hnn. congruence. }
    destruct (Hpar i) as (p' & Hp' & Hrange); [lia|].
    rewrite Hp in Hp'. injection Hp' as <-.
    apply getitem_nonneg_Ret in Hprow as [Hprow _]; [|lia].
    destruct IH as [Hlen Hrows]; [lia|]. simpl. split; [lia|].
    intros c [->|Hc]%elem_of_cons.
    + exists p. split; [lia|done].
    + destruct (Hrows c Hc) as (k & Hk & Hck). exists k. split; [lia|done].
Qed.

(** A run that ended in success ended on the reconstruction from its last
    tree. *)
Lemma loop_success_reconstruct (ext : External) (iters fuel : nat)
    (self : RRT) (eps goal_bias : float) (t : Tree) (g g' : RandomState)
    (r : Result) (path : list Config) :
  loop ext iters fuel self eps goal_bias t g = (Ret r, g') →
  solution_path r = Some path →
  reconstruct fuel self (tree r) = Ret path ∧ 2 ≤ n (tree r) ∨ n t < 1.
Proof.
  revert t g. induction iters as [|iters IH]; intros t g; simpl.
  - intros [= <- _]. done.
  - intros ([t' found] & g1 & Hit & Hrest)%Rand_bind_Ret Hpath.
    destruct found as [path'|].
    + injection Hrest as <- _. simpl in Hpath. injection Hpath as ->.
      apply iteration_Ret in Hit as (idx & x_near & x_new & Hp & He).
      apply extend_Ret in He
        as [(_ & _ & [=])|(_ & V' & P' & _ & _ & -> & Hgoal)].
      destruct (array_equal x_new (x_goal self)); [|discriminate].
      destruct Hgoal as (path'' & Hrec & [= ->]). cbn [tree n].
      destruct (decide (n t < 1)); [by right|left]. split; [done|lia].
    + apply iteration_size in Hit as [Hle _].
      destruct (IH _ _ Hrest Hpath) as [?|?]; [by left|right; lia].
Qed.

(** X10: on success the solution path is [x_goal] preceded by rows of
    older nodes of the tree: it ends with [x_goal] itself, holds at most [n]
    configurations, and each of the others is the row of a node other than
    the one appended last. *)
Theorem solution_path_ends_at_goal (ext : External) (fuel : nat) (self : RRT)
    (eps : float) (max_iters : Z) (goal_bias : float) (g g' : RandomState)
    (r : Result) (path : list Config) :
  grow ext fuel self eps max_iters goal_bias g = (Ret r, g') →
  solution_path r = Some path →
  ∃ rows,
    path = rows ++ [x_goal self]
    ∧ Z.of_nat (length path) ≤ n (tree r)
    ∧ ∀ c, c ∈ rows →
        ∃ k, 0 ≤ k < n (tree r) - 1 ∧ V (tree r) !! Z.to_nat k = Some c.
Proof.
  intros Hgrow Hpath.
  pose proof (grow_run_inv _ _ _ _ _ _ _ _ _ Hgrow) as [Hwf (Hroot & _)].
  unfold grow in Hgrow.
  apply Rand_bind_Ret in Hgrow as (t0 & g1 & [Hinit ->]%lift_Ret & Hloop).
  apply init_tree_Ret in Hinit as (_ & Hn0 & _).
  destruct (loop_success_reconstruct _ _ _ _ _ _ _ _ _ _ _ Hloop Hpath)
    as [[Hrec Hn]|?]; [|lia].
  unfold reconstruct in Hrec.
  apply Outcome_bind_Ret in Hrec as (p & Hwalk & [= <-]).
  apply walk_Ret_chain in Hwalk as (visited & j & Hch & ->).
  destruct (chain_climbs _ _ _ _ _ Hwf Hroot Hch) as [Hlen Hrows]; [lia|].
  exists (reverse visited). split_and!.
  - by rewrite reverse_app.
  - rewrite length_reverse, length_app. simpl. lia.
  - intros c Hc. apply Hrows. by apply elem_of_reverse.
Qed.

Lemma solution_path_ends_at_goal_witness :
  grow ext0 2 scenario_A 2%float 10 1%float (stream [0.25%float])
  = (Ret scenario_A_result, snd (random_sample (stream [0.25%float])))
  ∧ ∃ rows,
      [[0%float; 0%float]; [1%float; 1%float]] = rows ++ [x_goal scenario_A].
Proof.
  assert (grow ext0 2 scenario_A 2%float 10 1%float (stream [0.25%float])
          = (Ret scenario_A_result, snd (random_sample (stream [0.25%float]))))
    as Hgrow by (vm_compute; reflexivity).
  split; [exact Hgrow|].
  destruct (solution_path_ends_at_goal ext0 2 scenario_A 2%float 10 1%float
              (stream [0.25%float]) _ scenario_A_result
              [[0%float; 0%float]; [1%float; 1%float]] Hgrow eq_refl)
    as (rows & Hrows & _).
  exists rows. exact Hrows.
Defined.

(** X11: a NaN in [x_init] makes success impossible: no row ever compares
    equal to [x_init], so the reconstruction cannot end, and no call of
    [solve] on such a problem returns a path. *)
Theorem nan_in_x_init_never_succeeds (ext : External) (fuel : nat)
    (self : RRT) (eps : float) (max_iters : Z) (goal_bias : float)
    (g g' : RandomState) (r : Result) (v : float) :
  v ∈ x_init self → PrimFloat.is_nan v = true →
  (∀ t path, reconstruct fuel self t ≠ Ret path)
  ∧ (grow ext fuel self eps max_iters goal_bias g = (Ret r, g') →
     success r = false ∧ solution_path r = None).
Proof.
  intros Hv Hnan.
  assert (∀ t path, reconstruct fuel self t ≠ Ret path) as Hrec.
  { intros t path. unfold reconstruct.
    intros (p & Hwalk & _)%Outcome_bind_Ret.
    apply walk_Ret_chain in Hwalk as (visited & j & Hch & _).
    apply chain_init_no_nan in Hch.
    pose proof (proj1 (Forall_forall _ _) Hch v Hv). congruence. }
  split; [exact Hrec|]. unfold grow.
  intros (t0 & g1 & _ & Hloop)%Rand_bind_Ret.
  destruct (solution_path r) as [path|] eqn:Hpath.
  - exfalso. revert t0 g1 Hloop.
    generalize (Z.to_nat max_iters) as iters.
    induction iters as [|iters IH]; intros t g0; simpl.
    + intros [= <- _]. discriminate.
    + intros ([t' found] & g2 & Hit & Hrest)%Rand_bind_Ret.
      destruct found as [path'|]; [|by eapply IH].
      apply iteration_Ret in Hit as (idx & x_near & x_new & Hp & He).
      apply extend_Ret in He
        as [(_ & _ & [=])|(_ & V' & P' & _ & _ & -> & Hgoal)].
      destruct (array_equal x_new (x_goal self)); [|discriminate].
      destruct Hgoal as (path'' & Hrec' & _). by apply Hrec in Hrec'.
  - apply loop_success in Hloop as [_ Hs].
    destruct (success r); [|done].
    destruct Hs as (_ & _ & [? ?]). congruence.
Qed.

Lemma nan_in_x_init_never_succeeds_witness :
  let problem := {| cls := GeometricRRT;
                    statespace_lo := [(-5)%float; (-5)%float];
                    statespace_hi := [5%float; 5%float];
                    x_init := [nan; 0%float];
                    x_goal := [1%float; 1%float];
                    obstacles := [] |} in
  let t := {| V := [[nan; 0%float]; [1%float; 1%float]];
              P := [-1; 0]; n := 2 |} in
  PrimFloat.is_nan nan = true
  ∧ reconstruct 3 problem t ≠ Ret [[nan; 0%float]; [1%float; 1%float]].
Proof.
  intros problem t. split; [reflexivity|].
  apply (nan_in_x_init_never_succeeds ext0 3 problem 2%float 10 1%float
           (stream []) (stream [])
           {| tree := t; success := false; solution_path := None |} nan).
  - left.
  - reflexivity.
Defined.

(** ** Running out of fuel *)

(** Nothing but the [while] loop of the reconstruction can. *)
Lemma bind_fuel {A B : Type} (m : Outcome A) (f : A → Outcome B) :
  m ≠ OutOfFuel → (∀ a, m = Ret a → f a ≠ OutOfFuel) → m ≫= f ≠ OutOfFuel.
Proof. destruct m as [a| |]; simpl; [auto|done|done]. Qed.

Lemma Rand_bind_fuel {A B : Type} (m : Rand A) (f : A → Rand B)
    (g : RandomState) :
  fst (m g) ≠ OutOfFuel →
  (∀ a g1, m g = (Ret a, g1) → fst (f a g1) ≠ OutOfFuel) →
  fst ((m ≫= f) g) ≠ OutOfFuel.
Proof.
  unfold mbind, Rand_bind. destruct (m g) as [[a| |] g1]; simpl; [auto|done|done].
Qed.

Lemma norm_index_fuel {A : Type} (l : list A) (i : Z) :
  norm_index l i ≠ OutOfFuel.
Proof. unfold norm_index. by case_match. Qed.

Lemma getitem_fuel {A : Type} (l : list A) (i : Z) : getitem l i ≠ OutOfFuel.
Proof.
  unfold getitem. apply bind_fuel; [apply norm_index_fuel|].
  intros j _. by case_match.
Qed.

Lemma setitem_fuel {A : Type} (l : list A) (i : Z) (a : A) :
  setitem l i a ≠ OutOfFuel.
Proof. unfold setitem. apply bind_fuel; [apply norm_index_fuel|done]. Qed.

Lemma set_row_fuel (M : Matrix) (i : Z) (x : Config) :
  set_row M i x ≠ OutOfFuel.
Proof.
  unfold set_row. apply bind_fuel; [apply norm_index_fuel|].
  intros j _. repeat case_match; done.
Qed.

Lemma mapM_fuel {A B : Type} (f : A → Outcome B) (l : list A) :
  (∀ a, f a ≠ OutOfFuel) → mapM f l ≠ OutOfFuel.
Proof.
  intros Hf. induction l as [|a l IH]; simpl; [done|].
  apply bind_fuel; [done|]. intros b _. apply bind_fuel; [done|done].
Qed.

Lemma distance_fuel (ext : External) (self : RRT) (x1 x2 : Config) :
  distance ext self x1 x2 ≠ OutOfFuel.
Proof.
  unfold distance, np_sub, broadcast2. repeat case_match; simpl; done.
Qed.

Lemma find_nearest_fuel (ext : External) (self : RRT) (Vt : Matrix)
    (x : Config) :
  find_nearest ext self Vt x ≠ OutOfFuel.
Proof.
  unfold find_nearest.
  assert (mapM (λ row, distance ext self row x) Vt ≫= np_argmin ≠ OutOfFuel).
  { apply bind_fuel; [apply mapM_fuel; intros; apply distance_fuel|].
    intros ds _. unfold np_argmin. by case_match. }
  by destruct (cls self).
Qed.

Lemma steer_towards_fuel (ext : External) (self : RRT) (x y : Config)
    (eps : float) :
  steer_towards ext self x y eps ≠ OutOfFuel.
Proof.
  unfold steer_towards. destruct (cls self); [done| |].
  - apply bind_fuel; [apply distance_fuel|]. intros d _.
    case_match; [done|].
    repeat (apply bind_fuel; [apply getitem_fuel|]; intros ? _). done.
  - apply bind_fuel; [apply distance_fuel|]. intros d _.
    case_match; [done|apply getitem_fuel].
Qed.

Lemma is_free_motion_fuel (ext : External) (self : RRT) (obs : list Segment)
    (x1 x2 : Config) :
  is_free_motion ext self obs x1 x2 ≠ OutOfFuel.
Proof. unfold is_free_motion. by destruct (cls self). Qed.

Lemma uniform_each_fuel (bounds : list (float * float)) (g : RandomState) :
  fst (uniform_each bounds g) ≠ OutOfFuel.
Proof.
  revert g. induction bounds as [|[lo hi] bounds IH]; intros g; simpl; [done|].
  apply Rand_bind_fuel.
  - unfold random_uniform. by case_match.
  - intros v g1 _. apply Rand_bind_fuel; [apply IH|done].
Qed.

Lemma propose_fuel (ext : External) (self : RRT) (eps goal_bias : float)
    (t : Tree) (g : RandomState) :
  fst (propose ext self eps goal_bias t g) ≠ OutOfFuel.
Proof.
  unfold propose. apply Rand_bind_fuel.
  - unfold sample. apply Rand_bind_fuel; [done|].
    intros z g1 _. case_match; [done|apply uniform_each_fuel].
  - intros x_rand g1 _. unfold lift. simpl.
    apply bind_fuel; [apply find_nearest_fuel|]. intros idx _.
    apply bind_fuel; [apply getitem_fuel|]. intros x_near _.
    apply bind_fuel; [apply steer_towards_fuel|done].
Qed.

(** Appending to a well-formed tree gives a well-formed tree. *)
Lemma append_wf (t : Tree) (idx_near : Z) (x_new : Config) (V' : Matrix)
    (P' : list Z) :
  tree_wf t → 0 ≤ idx_near < n t →
  set_row (V t) (n t) x_new = Ret V' →
  setitem (P t) (n t) idx_near = Ret P' →
  tree_wf {| V := V'; P := P'; n := n t + 1 |}
  ∧ V' !! 0%nat = V t !! 0%nat ∧ len P' = len (P t).
Proof.
  intros [[Hn HVP] [Hroot Hpar]] Hidx HV HP.
  apply set_row_Ret in HV as (HnV & row & ->); [|lia].
  apply setitem_Ret in HP as (HnP & ->); [|lia].
  unfold tree_wf, sizes_ok, parents_ok, len in *. cbn [V P n].
  rewrite !length_insert. split_and!; try lia.
  - rewrite list_lookup_insert_ne; [done|lia].
  - intros i Hi. destruct (decide (i = n t)) as [->|Hne].
    + exists idx_near. rewrite list_lookup_insert_eq; [split; [done|lia]|lia].
    + rewrite list_lookup_insert_ne; [apply Hpar; lia|lia].
  - rewrite list_lookup_insert_ne; [done|lia].
Qed.

Lemma iteration_fuel (ext : External) (fuel : nat) (self : RRT)
    (eps goal_bias : float) (t : Tree) (g : RandomState) :
  tree_wf t → rooted self t →
  Forall (λ v, PrimFloat.is_nan v = false) (x_init self) →
  len (P t) ≤ Z.of_nat fuel →
  fst (iteration ext fuel self eps goal_bias t g) ≠ OutOfFuel.
Proof.
  intros Hwf Hroot Hnn Hfuel. unfold iteration.
  apply Rand_bind_fuel; [apply propose_fuel|].
  intros [[idx x_near] x_new] g1 Hp.
  apply propose_Ret in Hp as (x_rand & _ & Hidx%find_nearest_range & _).
  pose proof Hwf as [[Hn HVP] _]. rewrite slice_to_len in Hidx by lia.
  unfold lift, extend. simpl.
  apply bind_fuel; [apply is_free_motion_fuel|]. intros [|] _; [|done].
  apply bind_fuel; [apply set_row_fuel|]. intros V' HV.
  apply bind_fuel; [apply setitem_fuel|]. intros P' HP.
  case_match; [|done].
  destruct (append_wf t idx x_new V' P' Hwf Hidx HV HP) as (Hwf' & HV0 & HlenP).
  apply set_row_Ret in HV as (HnV & _); [|lia].
  destruct (reconstruct_terminates self {| V := V'; P := P'; n := n t + 1 |}
              (x_init self) Hwf') as [path Hpath].
  { cbn [V]. by rewrite HV0. }
  { by apply array_equal_refl. }
  rewrite Hpath; [done|]. cbn [n]. lia.
Qed.

(** X12: when [x_init] holds no NaN, the reconstruction always ends: with
    fuel for [max_iters] tests of the [while] loop, a call of [solve] never
    runs out of it, whatever it samples. *)
Theorem grow_never_out_of_fuel (ext : External) (fuel : nat) (self : RRT)
    (eps : float) (max_iters : Z) (goal_bias : float) (g : RandomState) :
  Forall (λ v, PrimFloat.is_nan v = false) (x_init self) →
  max_iters ≤ Z.of_nat fuel →
  fst (grow ext fuel self eps max_iters goal_bias g) ≠ OutOfFuel.
Proof.
  intros Hnn Hfuel. unfold grow. apply Rand_bind_fuel.
  - unfold lift, init_tree, np_zeros, np_minus_ones. simpl.
    case_match; simpl; [done|].
    apply bind_fuel; [apply set_row_fuel|]. intros V1 _. done.
  - intros t0 g1 [Hinit ->]%lift_Ret.
    pose proof (init_tree_wf _ _ _ Hinit) as Hwf.
    pose proof (run_inv_init ext _ _ _ Hinit) as Hinv.
    clear Hinit. revert t0 g Hwf Hinv.
    generalize (Z.to_nat max_iters) as iters.
    induction iters as [|iters IH]; intros t g Hwf Hinv; simpl; [done|].
    pose proof Hinv as (Hroot & (_ & HlenP & _) & _).
    apply Rand_bind_fuel; [apply iteration_fuel; (done || lia)|].
    intros [t' [path|]] g2 Hit; [done|].
    apply IH.
    + by eapply iteration_wf.
    + by eapply run_inv_step.
Qed.

Lemma grow_never_out_of_fuel_witness :
  Forall (λ v, PrimFloat.is_nan v = false) (x_init scenario_A)
  ∧ fst (grow ext0 10 scenario_A 2%float 10 1%float (stream [0.25%float]))
    ≠ OutOfFuel.
Proof.
  assert (Forall (λ v, PrimFloat.is_nan v = false) (x_init scenario_A)) as Hnn.
  { repeat constructor. }
  split; [exact Hnn|].
  apply (grow_never_out_of_fuel ext0 10 scenario_A 2%float 10 1%float
           (stream [0.25%float]) Hnn).
  simpl. lia.
Defined.

(** ** Calls that cannot return *)

Lemma solve_nonpositive (ext : External) (fuel : nat) (self : RRT)
    (eps : float) (max_iters : Z) (goal_bias : float) (w : World) :
  max_iters ≤ 0 →
  solve ext fuel self eps max_iters goal_bias w
  = (Raise (if max_iters <? 0 then ValueError else IndexError), w).
Proof.
  intros Hm. destruct w as [g cs].
  unfold solve, grow, init_tree, np_zeros, lift, mbind, Rand_bind. cbn [np_random].
  destruct (max_iters <? 0) eqn:Hneg; [done|].
  assert (max_iters = 0) as -> by lia. reflexivity.
Qed.

(** X13: without an iteration to run, [solve] does not report an exhausted
    search: [max_iters = 0] ends in IndexError on the root assignment and a
    negative [max_iters] in ValueError on the allocation, before anything
    is sampled or plotted. *)
Theorem solve_without_iterations_raises (ext : External) (fuel : nat)
    (self : RRT) (eps : float) (max_iters : Z) (goal_bias : float)
    (w : World) :
  max_iters ≤ 0 →
  solve ext fuel self eps max_iters goal_bias w
  = (Raise (if max_iters <? 0 then ValueError else IndexError), w).
Proof. apply solve_nonpositive. Qed.

Lemma solve_without_iterations_raises_witness :
  solve ext0 2 scenario_A 2%float 0 1%float (world0 [0.25%float])
  = (Raise IndexError, world0 [0.25%float]).
Proof.
  apply (solve_without_iterations_raises ext0 2 scenario_A 2%float 0 1%float
           (world0 [0.25%float])).
  lia.
Defined.





(** ** A planner that rejects everything *)

(** X15: when [is_free_motion] rejects every motion, the run ends exhausted
    on the tree it started with: the root alone, no success, no path. *)
Theorem rejecting_planner_keeps_initial_tree (ext : External) (fuel : nat)
    (self : RRT) (eps : float) (max_iters : Z) (goal_bias : float)
    (g g' : RandomState) (r : Result) :
  (∀ x1 x2, is_free_motion ext self (obstacles self) x1 x2 = Ret false) →
  grow ext fuel self eps max_iters goal_bias g = (Ret r, g') →
  init_tree self max_iters = Ret (tree r)
  ∧ n (tree r) = 1 ∧ success r = false ∧ solution_path r = None.
Proof.
  intros Hrej. unfold grow.
  intros (t0 & g1 & [Hinit ->]%lift_Ret & Hloop)%Rand_bind_Ret.
  assert (tree r = t0 ∧ success r = false ∧ solution_path r = None)
    as (-> & Hs & Hp).
  { revert g Hloop. generalize (Z.to_nat max_iters) as iters.
    induction iters as [|iters IH]; intros g; simpl.
    - by intros [= <- _].
    - intros ([t' found] & g2 & Hit & Hrest)%Rand_bind_Ret.
      apply iteration_Ret in Hit as (idx & x_near & x_new & _ & He).
      apply extend_Ret in He as [(_ & -> & ->)|(Hfree & _)].
      + by eapply IH.
      + rewrite Hrej in Hfree. discriminate. }
  split_and!; [done| |done|done].
  by apply init_tree_Ret in Hinit as (_ & ? & _).
Qed.

Lemma rejecting_planner_keeps_initial_tree_witness :
  ∃ r g',
    grow ext_crossing 2 scenario_B 2%float 3 1%float (stream [0.25%float])
    = (Ret r, g')
    ∧ n (tree r) = 1 ∧ success r = false.
Proof.
  assert (∃ r g', grow ext_crossing 2 scenario_B 2%float 3 1%float
                    (stream [0.25%float]) = (Ret r, g')) as (r & g' & Hgrow).
  { eexists _, _. vm_compute. reflexivity. }
  destruct (rejecting_planner_keeps_initial_tree ext_crossing 2 scenario_B
              2%float 3 1%float (stream [0.25%float]) g' r)
    as (_ & Hn & Hs & _).
  { intros x1 x2. reflexivity. }
  { exact Hgrow. }
  exists r, g'. split_and!; [exact Hgrow|exact Hn|exact Hs].
Defined.

(** ** Draws from the generator *)

Lemma uniform_each_draws (bounds : list (float * float)) (g : RandomState) :
  advanced 0 (length bounds) g (snd (uniform_each bounds g))
  ∧ ∀ x g', uniform_each bounds g = (Ret x, g') →
      length x = length bounds ∧ advanced (length bounds) (length bounds) g g'.
Proof.
  unfold advanced. revert g.
  induction bounds as [|[lo hi] bounds IH]; intros g; simpl.
  - split; [split; [done|lia]|]. intros x g' [= <- <-]. split; [done|].
    split; [done|lia].
  - unfold mbind, Rand_bind, random_uniform.
    destruct (PrimFloat.is_finite (PrimFloat.sub hi lo)); simpl;
      [|split; [split; [done|lia]|discriminate]].
    destruct (IH {| draws := draws g; cursor := S (cursor g) |})
      as [[Hd Hc] Hret].
    destruct (uniform_each bounds _) as [[x'| |] g2]; simpl in *;
      (split; [split; [done|lia]|]); try discriminate.
    intros x g' [= <- <-].
    destruct (Hret x' g2 eq_refl) as (Hlen & Hd' & Hc').
    split; [simpl; lia|]. split; [done|lia].
Qed.

(** X16: what an iteration samples.  [x_rand] is [x_goal] itself, for one
    draw, or a configuration with one coordinate per pair of bounds, for
    one draw more per coordinate. *)
Theorem sample_goal_or_one_draw_per_bound (self : RRT) (goal_bias : float)
    (g g' : RandomState) (x_rand : Config) :
  sample self goal_bias g = (Ret x_rand, g') →
  draws g' = draws g
  ∧ ((PrimFloat.ltb (draws g (cursor g)) goal_bias = true
      ∧ x_rand = x_goal self ∧ cursor g' = S (cursor g))
     ∨ (PrimFloat.ltb (draws g (cursor g)) goal_bias = false
        ∧ length x_rand = sample_dim self
        ∧ cursor g' = (cursor g + 1 + sample_dim self)%nat)).
Proof.
  unfold sample, mbind, Rand_bind, random_sample, sample_dim. simpl.
  destruct (PrimFloat.ltb _ goal_bias).
  - intros [= <- <-]. split; [done|]. left. done.
  - intros Hu.
    destruct (proj2 (uniform_each_draws _ _) _ _ Hu) as (Hlen & Hd & Hc).
    simpl in *. split; [done|]. right. split_and!; [done|done|lia].
Qed.

Lemma sample_goal_or_one_draw_per_bound_witness :
  sample scenario_A 0.5%float (stream [0.75%float; 0.25%float])
  = (Ret [(-2.5)%float; 0%float],
     {| draws := draws (stream [0.75%float; 0.25%float]); cursor := 3 |})
  ∧ length [(-2.5)%float; 0%float] = sample_dim scenario_A.
Proof.
  assert (sample scenario_A 0.5%float (stream [0.75%float; 0.25%float])
          = (Ret [(-2.5)%float; 0%float],
             {| draws := draws (stream [0.75%float; 0.25%float]);
                cursor := 3 |})) as Hs by reflexivity.
  split; [exact Hs|].
  destruct (sample_goal_or_one_draw_per_bound _ _ _ _ _ Hs)
    as [_ [(Hlt & _)|(_ & Hlen & _)]]; [discriminate|exact Hlen].
Defined.

Lemma sample_draws (self : RRT) (goal_bias : float) (g : RandomState) :
  advanced 1 (1 + sample_dim self) g (snd (sample self goal_bias g)).
Proof.
  unfold sample, mbind, Rand_bind, random_sample, sample_dim, advanced. simpl.
  destruct (PrimFloat.ltb _ goal_bias); simpl; [split; [done|lia]|].
  destruct (proj1 (uniform_each_draws
                     (zip (statespace_lo self) (statespace_hi self))
                     {| draws := draws g; cursor := S (cursor g) |}))
    as [Hd Hc].
  destruct (uniform_each _ _) as [[x| |] g2]; simpl in *; (split; [done|lia]).
Qed.

Lemma iteration_draws (ext : External) (fuel : nat) (self : RRT)
    (eps goal_bias : float) (t : Tree) (g : RandomState) :
  advanced 1 (1 + sample_dim self) g
    (snd (iteration ext fuel self eps goal_bias t g)).
Proof.
  pose proof (sample_draws self goal_bias g) as Hs.
  unfold iteration, propose, mbind, Rand_bind, lift.
  destruct (sample self goal_bias g) as [[x| |] g1]; simpl in *; [|done..].
  repeat case_match; simplify_eq; simpl; done.
Qed.

Lemma advanced_trans (lo1 hi1 lo2 hi2 : nat) (g1 g2 g3 : RandomState) :
  advanced lo1 hi1 g1 g2 → advanced lo2 hi2 g2 g3 →
  advanced (lo1 + lo2) (hi1 + hi2) g1 g3.
Proof. unfold advanced. intros [-> ?] [-> ?]. split; [done|lia]. Qed.

Lemma advanced_weaken (lo hi lo' hi' : nat) (g g' : RandomState) :
  advanced lo hi g g' → (lo' ≤ lo)%nat → (hi ≤ hi')%nat →
  advanced lo' hi' g g'.
Proof. unfold advanced. intros [-> ?] ? ?. split; [done|lia]. Qed.

Lemma loop_draws (ext : External) (iters fuel : nat) (self : RRT)
    (eps goal_bias : float) (t : Tree) (g : RandomState) :
  advanced 0 (iters * (1 + sample_dim self)) g
    (snd (loop ext iters fuel self eps goal_bias t g))
  ∧ ∀ r g', loop ext iters fuel self eps goal_bias t g = (Ret r, g') →
      success r = false →
      advanced iters (iters * (1 + sample_dim self)) g g'.
Proof.
  revert t g. induction iters as [|iters IH]; intros t g; simpl.
  - split; [split; [done|lia]|]. intros r g' [= <- <-] _. split; [done|lia].
  - pose proof (iteration_draws ext fuel self eps goal_bias t g) as Hit.
    unfold mbind, Rand_bind.
    destruct (iteration ext fuel self eps goal_bias t g)
      as [[[t' [path|]]| |] g1]; simpl in *.
    + split; [eapply advanced_weaken; [done|lia..]|].
      intros r g' [= <- <-]. done.
    + destruct (IH t' g1) as [Hup Hret]. split.
      * eapply advanced_weaken; [by eapply advanced_trans|lia..].
      * intros r g' Hloop Hs.
        eapply advanced_weaken; [eapply advanced_trans; [done|by eapply Hret]|lia..].
    + split; [eapply advanced_weaken; [done|lia..]|discriminate].
    + split; [eapply advanced_weaken; [done|lia..]|discriminate].
Qed.

(** X17: the generator is only ever advanced: a call of [solve] leaves its
    stream as it was and consumes at most [1 + d] doubles per iteration,
    [d] the number of bounds; a run that ends exhausted has consumed at
    least one double per iteration. *)
Theorem grow_draws_per_iteration (ext : External) (fuel : nat) (self : RRT)
    (eps : float) (max_iters : Z) (goal_bias : float) (g : RandomState) :
  advanced 0 (Z.to_nat max_iters * (1 + sample_dim self)) g
    (snd (grow ext fuel self eps max_iters goal_bias g))
  ∧ ∀ r g', grow ext fuel self eps max_iters goal_bias g = (Ret r, g') →
      success r = false →
      advanced (Z.to_nat max_iters) (Z.to_nat max_iters * (1 + sample_dim self))
        g g'.
Proof.
  unfold grow, mbind, Rand_bind, lift.
  destruct (init_tree self max_iters) as [t0| |]; simpl.
  - apply loop_draws.
  - split; [split; [done|lia]|discriminate].
  - split; [split; [done|lia]|discriminate].
Qed.

Lemma grow_draws_per_iteration_witness :
  ∃ r g',
    grow ext_crossing 2 scenario_B 2%float 3 1%float (stream [0.25%float])
    = (Ret r, g')
    ∧ success r = false ∧ advanced 3 9 (stream [0.25%float]) g'.
Proof.
  assert (∃ r g', grow ext_crossing 2 scenario_B 2%float 3 1%float
                    (stream [0.25%float]) = (Ret r, g')
                  ∧ success r = false) as (r & g' & Hgrow & Hs).
  { eexists _, _. split; vm_compute; reflexivity. }
  exists r, g'. split_and!; [exact Hgrow|exact Hs|].
  apply (proj2 (grow_draws_per_iteration ext_crossing 2 scenario_B 2%float 3
                  1%float (stream [0.25%float])) r g' Hgrow Hs).
Defined.

(** ** Free motions *)

Lemma forallb_andb {A : Type} (f g : A → bool) (l : list A) :
  forallb (λ x, f x && g x) l = forallb f l && forallb g l.
Proof.
  induction l as [|a l IH]; simpl; [done|]. rewrite IH.
  destruct (f a), (g a), (forallb f l), (forallb g l); done.
Qed.

Lemma forallb_always {A : Type} (f : A → bool) (l : list A) :
  (∀ x, f x = true) → forallb f l = true.
Proof. intros Hf. induction l as [|a l IH]; simpl; [done|]. by rewrite Hf. Qed.

Lemma forallb_pointwise {A : Type} (f g : A → bool) (l : list A) :
  (∀ x, f x = g x) → forallb f l = forallb g l.
Proof.
  intros Hfg. induction l as [|a l IH]; simpl; [done|]. by rewrite Hfg, IH.
Qed.

(** X18: obstacles add up.  For both concrete classes, and with
    collaborators that answer alike when asked alike: a call of
    [is_free_motion] without obstacles that returns, returns [True]; and
    when the calls against each of two sets of obstacles return, the call
    against the two sets together returns too, and accepts the motion
    exactly when each of them does. *)
Theorem is_free_motion_obstacles_add_up (ext : External) (self : RRT)
    (obs1 obs2 : list Segment) (x1 x2 : Config) :
  cls self ≠ RRT_base →
  (∀ b, is_free_motion ext self [] x1 x2 = Ret b → b = true)
  ∧ (∀ b1 b2,
       is_free_motion ext self obs1 x1 x2 = Ret b1 →
       is_free_motion ext self obs2 x1 x2 = Ret b2 →
       is_free_motion ext self (obs1 ++ obs2) x1 x2 = Ret (b1 && b2)).
Proof.
  intros Hcls. unfold is_free_motion.
  destruct (cls self) as [| |r]; [done| |].
  - split; [by intros b [= <-]|].
    intros b1 b2 [= <-] [= <-]. by rewrite forallb_app.
  - split.
    + intros b [= <-]. apply forallb_always. by intros [p q].
    + intros b1 b2 [= <-] [= <-]. f_equal.
      rewrite <- forallb_andb. apply forallb_pointwise.
      intros [p q]. apply forallb_app.
Qed.

Lemma is_free_motion_obstacles_add_up_witness :
  is_free_motion ext_crossing scenario_B []
    [0%float; 0%float] [1%float; 1%float] = Ret true
  ∧ is_free_motion ext_crossing scenario_B (obstacles scenario_B)
      [0%float; 0%float] [1%float; 1%float] = Ret false
  ∧ is_free_motion ext_crossing scenario_B ([] ++ obstacles scenario_B)
      [0%float; 0%float] [1%float; 1%float] = Ret (true && false).
Proof.
  assert (is_free_motion ext_crossing scenario_B []
            [0%float; 0%float] [1%float; 1%float] = Ret true) as H1
    by reflexivity.
  assert (is_free_motion ext_crossing scenario_B (obstacles scenario_B)
            [0%float; 0%float] [1%float; 1%float] = Ret false) as H2
    by reflexivity.
  split_and!; [exact H1|exact H2|].
  destruct (is_free_motion_obstacles_add_up ext_crossing scenario_B []
              (obstacles scenario_B) [0%float; 0%float] [1%float; 1%float])
    as [_ Hadd].
  { discriminate. }
  exact (Hadd true false H1 H2).
Defined.





(** ** Shapes *)

(** X20: when the straight-line distance is defined.  [x1 - x2] follows
    numpy's broadcasting, so [GeometricRRT.distance] returns a number when
    the two configurations have the same number of coordinates or one of
    them has a single coordinate, and is a ValueError otherwise. *)
Theorem geometric_distance_broadcasts (ext : External) (self : RRT)
    (x1 x2 : Config) :
  cls self = GeometricRRT →
  (length x1 = length x2 ∨ length x1 = 1%nat ∨ length x2 = 1%nat →
   ∃ d, distance ext self x1 x2 = Ret d)
  ∧ (length x1 ≠ length x2 → length x1 ≠ 1%nat → length x2 ≠ 1%nat →
     distance ext self x1 x2 = Raise ValueError).
Proof.
  intros Hcls. unfold distance, np_sub, broadcast2. rewrite Hcls.
  split.
  - intros Hshape.
    destruct (Nat.eqb (length x1) (length x2)) eqn:Heq; simpl; [eauto|].
    apply Nat.eqb_neq in Heq.
    destruct x1 as [|u [|]], x2 as [|v [|]]; simpl in *; eauto;
      destruct Hshape as [?|[?|?]]; (done || lia).
  - intros Hne H1 H2. rewrite (proj2 (Nat.eqb_neq _ _) Hne).
    destruct x1 as [|u [|]], x2 as [|v [|]]; simpl in *; done.
Qed.

Lemma geometric_distance_broadcasts_witness :
  (∃ d, distance ext0 scenario_A [0%float; 0%float] [3%float] = Ret d)
  ∧ distance ext0 scenario_A [0%float; 0%float]
      [1%float; 1%float; 0%float] = Raise ValueError.
Proof.
  destruct (geometric_distance_broadcasts ext0 scenario_A) with
    (x1 := [0%float; 0%float]) (x2 := [3%float])
    as (Hok & _); [reflexivity|].
  destruct (geometric_distance_broadcasts ext0 scenario_A) with
    (x1 := [0%float; 0%float]) (x2 := [1%float; 1%float; 0%float])
    as (_ & Hbad); [reflexivity|].
  split.
  - apply Hok. right. right. reflexivity.
  - apply Hbad; simpl; lia.
Defined.

Lemma render_Ret_dims (self : RRT) (r : Result) (cs : list PlotCall) (u : ()) :
  render self r = (cs, Ret u) →
  1 < len (x_init self) ∧ 1 < len (x_goal self).
Proof.
  unfold render, do_plot_tree, do_plot_path, call, eval.
  unfold mbind, Plot_bind, mret, Plot_ret.
  destruct (getitem (x_init self) 1) as [i1| |] eqn:Hi;
    destruct (getitem (x_goal self) 1) as [g1| |] eqn:Hg;
    try (repeat (case_match; simplify_eq; try discriminate); done).
  intros _.
  apply getitem_nonneg_Ret in Hi as [_ Hi]; [|lia].
  apply getitem_nonneg_Ret in Hg as [_ Hg]; [|lia]. done.
Qed.

(** X21: [solve] completes only on states with at least two coordinates:
    the plots read coordinates 0 and 1 of the nodes, of [x_init] and of
    [x_goal], so a call that returns had them. *)
Theorem solve_returns_only_with_two_coordinates (ext : External) (fuel : nat)
    (self : RRT) (eps : float) (max_iters : Z) (goal_bias : float)
    (w w' : World) (v : PyValue) :
  solve ext fuel self eps max_iters goal_bias w = (Ret v, w') →
  (2 ≤ length (x_init self))%nat ∧ (2 ≤ length (x_goal self))%nat.
Proof.
  unfold solve.
  destruct (grow ext fuel self eps max_iters goal_bias (np_random w))
    as [[r| |] g'] eqn:Hgrow; [|discriminate..].
  destruct (render self r) as [cs [[]| |]] eqn:Hrender; simpl; [|discriminate..].
  intros _. apply render_Ret_dims in Hrender. unfold len in Hrender. lia.
Qed.

Lemma solve_returns_only_with_two_coordinates_witness :
  ∃ w', solve ext0 2 scenario_A 2%float 10 1%float (world0 [0.25%float])
        = (Ret PyNone, w')
        ∧ (2 ≤ length (x_init scenario_A))%nat.
Proof.
  assert (∃ w', solve ext0 2 scenario_A 2%float 10 1%float
                  (world0 [0.25%float]) = (Ret PyNone, w')) as [w' Hsolve].
  { eexists. vm_compute. reflexivity. }
  exists w'. split; [exact Hsolve|].
  apply (solve_returns_only_with_two_coordinates ext0 2 scenario_A 2%float 10
           1%float (world0 [0.25%float]) w' PyNone Hsolve).
Defined.

(** ** Value equality of configurations *)

Lemma eqb_sym (x y : float) :
  PrimFloat.eqb x y = true → PrimFloat.eqb y x = true.
Proof.
  intros H. destruct (eqb_true_not_nan _ _ H) as [Hx Hy].
  apply not_nan_key in Hx as [a Ha]. apply not_nan_key in Hy as [b Hb].
  apply (eqb_key y x b a Hb Ha). symmetry. by apply (eqb_key x y a b Ha Hb).
Qed.

Lemma eqb_trans (x y z : float) :
  PrimFloat.eqb x y = true → PrimFloat.eqb y z = true →
  PrimFloat.eqb x z = true.
Proof.
  intros Hxy Hyz.
  destruct (eqb_true_not_nan _ _ Hxy) as [Hx Hy].
  destruct (eqb_true_not_nan _ _ Hyz) as [_ Hz].
  apply not_nan_key in Hx as [a Ha]. apply not_nan_key in Hy as [b Hb].
  apply not_nan_key in Hz as [c Hc].
  apply (eqb_key x z a c Ha Hc).
  apply (eqb_key x y a b Ha Hb) in Hxy. apply (eqb_key y z b c Hb Hc) in Hyz.
  congruence.
Qed.

Lemma array_equal_length (a b : Config) :
  array_equal a b = true → length a = length b.
Proof.
  revert b. induction a as [|x a IH]; intros [|y b]; simpl; try done.
  intros [_ Hab]%andb_prop. f_equal. by apply IH.
Qed.

Lemma array_equal_sym (a b : Config) :
  array_equal a b = true → array_equal b a = true.
Proof.
  revert b. induction a as [|x a IH]; intros [|y b]; simpl; try done.
  intros [Hxy Hab]%andb_prop. by rewrite (eqb_sym _ _ Hxy), (IH _ Hab).
Qed.

Lemma array_equal_trans (a b c : Config) :
  array_equal a b = true → array_equal b c = true → array_equal a c = true.
Proof.
  revert b c. induction a as [|x a IH]; intros [|y b] [|z c]; simpl; try done.
  intros [Hxy Hab]%andb_prop [Hyz Hbc]%andb_prop.
  by rewrite (eqb_trans _ _ _ Hxy Hyz), (IH _ _ Hab Hbc).
Qed.

(** ** One iteration, with the goal test *)

Lemma iteration_step_goal (ext : External) (fuel : nat) (self : RRT)
    (eps goal_bias : float) (t t' : Tree) (g g' : RandomState)
    (found : option (list Config)) :
  tree_wf t →
  iteration ext fuel self eps goal_bias t g = (Ret (t', found), g') →
  (t' = t ∧ found = None)
  ∨ ∃ idx x_near x_new old row,
      0 ≤ idx < n t
      ∧ V t !! Z.to_nat idx = Some x_near
      ∧ is_free_motion ext self (obstacles self) x_near x_new = Ret true
      ∧ V t !! Z.to_nat (n t) = Some old
      ∧ stored_as x_new (length old) row
      ∧ t' = {| V := <[Z.to_nat (n t) := row]> (V t);
                P := <[Z.to_nat (n t) := idx]> (P t);
                n := n t + 1 |}
      ∧ ((array_equal x_new (x_goal self) = false ∧ found = None)
         ∨ (array_equal x_new (x_goal self) = true
            ∧ ∃ path, reconstruct fuel self t' = Ret path ∧ found = Some path)).
Proof.
  intros [[Hn HVP] _] (idx & x_near & x_new & Hp & He)%iteration_Ret.
  apply propose_Ret in Hp as (x_rand & _ & Hidx%find_nearest_range & Hnear & _).
  rewrite slice_to_len in Hidx by lia.
  apply extend_Ret in He
    as [(_ & -> & ->)|(Hfree & V' & P' & HV & HP & -> & Hgoal)]; [by left|].
  right.
  apply getitem_nonneg_Ret in Hnear as [Hnear _]; [|lia].
  apply set_row_stored in HV as (old & row & Hold & -> & Hrow); [|lia].
  apply setitem_Ret in HP as (_ & ->); [|lia].
  exists idx, x_near, x_new, old, row. split_and!; [lia|lia|done..|].
  destruct (array_equal x_new (x_goal self)); [right|left]; done.
Qed.



(** ** The solution path, pair by pair *)

(** What the iteration that ended a successful run did. *)
Lemma loop_last_iteration (ext : External) (iters fuel : nat) (self : RRT)
    (eps goal_bias : float) (t : Tree) (g g' : RandomState) (r : Result)
    (path : list Config) :
  tree_wf t →
  loop ext iters fuel self eps goal_bias t g = (Ret r, g') →
  solution_path r = Some path →
  ∃ idx x_near x_new row,
    2 ≤ n (tree r)
    ∧ P (tree r) !! Z.to_nat (n (tree r) - 1) = Some idx
    ∧ 0 ≤ idx < n (tree r) - 1
    ∧ V (tree r) !! Z.to_nat idx = Some x_near
    ∧ is_free_motion ext self (obstacles self) x_near x_new = Ret true
    ∧ V (tree r) !! Z.to_nat (n (tree r) - 1) = Some row
    ∧ stored_as x_new (length row) row
    ∧ array_equal x_new (x_goal self) = true
    ∧ reconstruct fuel self (tree r) = Ret path.
Proof.
  revert t g. induction iters as [|iters IH]; intros t g Hwf; simpl.
  - intros [= <- _]. done.
  - intros ([t' found] & g1 & Hit & Hrest)%Rand_bind_Ret Hpath.
    pose proof (iteration_wf _ _ _ _ _ _ _ _ _ _ Hwf Hit) as Hwf'.
    destruct found as [path'|]; [|by eapply IH].
    injection Hrest as <- _. simpl in Hpath. injection Hpath as ->.
    apply (iteration_step_goal _ _ _ _ _ _ _ _ _ _ Hwf) in Hit
      as [[_ [=]]|(idx & x_near & x_new & old & row
                   & Hidx & Hnear & Hfree & Hold & Hrow & -> & Hgoal)].
    destruct Hgoal as [[_ [=]]|(Hgoal & path' & Hrec & [= ->])].
    pose proof (lookup_lt_Some _ _ _ Hold) as Hlt.
    destruct Hwf as [[Hn HVP] _]. unfold len in *.
    exists idx, x_near, x_new, row. cbn [tree V P n].
    replace (n t + 1 - 1) with (n t) by lia.
    rewrite !list_lookup_insert_eq by lia.
    rewrite list_lookup_insert_ne by lia.
    rewrite (stored_as_length _ _ _ Hrow).
    split_and!; (done || lia).
Qed.

(** X23: path validity, first node.  When [x_goal] has the dimension of
    [x_init], the first configuration of a solution path equals [x_init] by
    value. *)
Theorem solution_path_starts_at_x_init (ext : External) (fuel : nat)
    (self : RRT) (eps : float) (max_iters : Z) (goal_bias : float)
    (g g' : RandomState) (r : Result) (path : list Config) :
  length (x_goal self) = length (x_init self) →
  grow ext fuel self eps max_iters goal_bias g = (Ret r, g') →
  solution_path r = Some path →
  ∃ first, head path = Some first ∧ array_equal first (x_init self) = true.
Proof.
  intros Hdim. unfold grow.
  intros (t0 & g1 & [Hinit%init_tree_wf ->]%lift_Ret & Hloop)%Rand_bind_Ret
         Hpath.
  destruct (loop_last_iteration _ _ _ _ _ _ _ _ _ _ _ Hinit Hloop Hpath)
    as (idx & x_near & x_new & row & Hn & _ & _ & _ & _ & Hrow & Hstored
        & Hgoal & Hrec).
  unfold reconstruct in Hrec.
  apply Outcome_bind_Ret in Hrec as (p & Hwalk & [= <-]).
  apply walk_Ret_chain in Hwalk as (visited & j & Hch & ->).
  rewrite reverse_app. simpl.
  destruct (chain_end _ _ _ _ _ _ Hch) as (row_j & Hj & Heq & Hlast).
  destruct visited as [|v visited].
  - exists (x_goal self). split; [done|].
    inversion Hch; subst.
    apply getitem_nonneg_Ret in Hj as [Hj _]; [|lia].
    rewrite Hrow in Hj. injection Hj as <-.
    assert (row = x_new) as ->.
    { destruct Hstored as [[-> _]|(v & -> & Hrep)]; [done|].
      apply array_equal_length in Hgoal, Heq. simpl in Hgoal.
      rewrite Hrep. replace (length row) with 1%nat; [done|congruence]. }
    eapply array_equal_trans; [|exact Heq]. by apply array_equal_sym.
  - exists row_j. split; [|done].
    rewrite head_app, head_reverse, Hlast; done.
Qed.

Lemma solution_path_starts_at_x_init_witness :
  grow ext0 2 scenario_A 2%float 10 1%float (stream [0.25%float])
  = (Ret scenario_A_result, snd (random_sample (stream [0.25%float])))
  ∧ ∃ first,
      head [[0%float; 0%float]; [1%float; 1%float]] = Some first
      ∧ array_equal first (x_init scenario_A) = true.
Proof.
  assert (grow ext0 2 scenario_A 2%float 10 1%float (stream [0.25%float])
          = (Ret scenario_A_result, snd (random_sample (stream [0.25%float]))))
    as Hgrow by (vm_compute; reflexivity).
  split; [exact Hgrow|].
  apply (solution_path_starts_at_x_init ext0 2 scenario_A 2%float 10 1%float
           (stream [0.25%float]) _ scenario_A_result
           [[0%float; 0%float]; [1%float; 1%float]] eq_refl Hgrow eq_refl).
Defined.

(** Along the chain of a tree of a run, every row passed was the start of
    an accepted motion to the configuration stored in the row before it. *)
Lemma chain_pairs (ext : External) (self : RRT) (t : Tree) (i j : Z)
    (visited : list Config) :
  tree_wf t → rooted self t → edges_free ext self t →
  chain (V t) (P t) (x_init self) i visited j →
  ∀ row_i, 0 ≤ i < n t → V t !! Z.to_nat i = Some row_i →
    ∀ k a b, visited !! k = Some a → (row_i :: visited) !! k = Some b →
      ∃ x_new,
        is_free_motion ext self (obstacles self) a x_new = Ret true
        ∧ stored_as x_new (length (x_init self)) b.
Proof.
  intros Hwf Hroot Hedges.
  induction 1 as [i row Hrow Heq|i p j row prow visited Hrow Hne Hp Hprow Hch IH];
    intros row_i Hi Hrow_i k a b Ha Hb; [done|].
  apply getitem_nonneg_Ret in Hrow as [Hrow _]; [|lia].
  rewrite Hrow_i in Hrow. injection Hrow as <-.
  assert (i ≠ 0) as Hnz.
  { intros ->. change (Z.to_nat 0) with 0%nat in Hrow_i.
    rewrite Hroot in Hrow_i. injection Hrow_i as <-.
    pose proof (chain_init_no_nan _ _ _ _ _ _ Hch) as Hnn.
    apply array_equal_refl in Hnn. congruence. }
  destruct (Hedges (Z.to_nat i)) as (p' & x_near & x_new & row' & Hp' & Hrange
                                     & Hnear & Hfree & Hrow' & Hstored);
    [lia|lia|].
  apply getitem_nonneg_Ret in Hp as [Hp _]; [|lia].
  rewrite Hp in Hp'. injection Hp' as <-.
  apply getitem_nonneg_Ret in Hprow as [Hprow _]; [|lia].
  rewrite Hprow in Hnear. injection Hnear as <-.
  rewrite Hrow_i in Hrow'. injection Hrow' as <-.
  destruct k as [|k].
  - simpl in Ha, Hb. injection Ha as <-. injection Hb as <-. eauto.
  - simpl in Ha, Hb. eapply (IH prow); [lia|done|done|done].
Qed.

(** X24: path validity, pair by pair.  Every configuration of a solution
    path but the last was the start of a motion that [is_free_motion]
    accepted, to the configuration that the next row of the path stores,
    or, for the last pair, to a configuration equal to [x_goal] by
    value. *)
Theorem solution_path_pairs_are_free (ext : External) (fuel : nat)
    (self : RRT) (eps : float) (max_iters : Z) (goal_bias : float)
    (g g' : RandomState) (r : Result) (path : list Config) :
  grow ext fuel self eps max_iters goal_bias g = (Ret r, g') →
  solution_path r = Some path →
  ∀ k a b, path !! k = Some a → path !! S k = Some b →
    ∃ x_new,
      is_free_motion ext self (obstacles self) a x_new = Ret true
      ∧ ((S (S k) = length path ∧ b = x_goal self
          ∧ array_equal x_new (x_goal self) = true)
         ∨ ((S (S k) < length path)%nat
            ∧ stored_as x_new (length (x_init self)) b)).
Proof.
  intros Hgrow Hpath.
  pose proof (grow_run_inv _ _ _ _ _ _ _ _ _ Hgrow)
    as [Hwf (Hroot & _ & _ & Hedges)].
  unfold grow in Hgrow.
  apply Rand_bind_Ret in Hgrow
    as (t0 & g1 & [Hinit%init_tree_wf ->]%lift_Ret & Hloop).
  destruct (loop_last_iteration _ _ _ _ _ _ _ _ _ _ _ Hinit Hloop Hpath)
    as (idx & x_near & x_new & row & Hn & HP & Hidx & Hnear & Hfree & Hrow
        & _ & Hgoal & Hrec).
  unfold reconstruct in Hrec.
  apply Outcome_bind_Ret in Hrec as (p & Hwalk & [= <-]).
  apply walk_Ret_chain in Hwalk as (visited & j & Hch & ->).
  rewrite reverse_app. simpl. intros k a b Ha Hb.
  rewrite length_app, length_reverse. simpl.
  assert (S k < length visited ∨ S k = length visited)%nat as [Hk|Hk].
  { apply lookup_lt_Some in Hb.
    rewrite length_app, length_reverse in Hb. simpl in Hb. lia. }
  - rewrite lookup_app_l in Ha, Hb by (rewrite length_reverse; lia).
    rewrite reverse_lookup in Ha, Hb by lia.
    destruct (chain_pairs ext self _ _ _ _ Hwf Hroot Hedges Hch row)
      with (k := (length visited - S k)%nat) (a := a) (b := b)
      as (x_new' & Hfree' & Hstored'); [lia|done|done| |].
    { replace (length visited - S k)%nat
        with (S (length visited - S (S k))) by lia. done. }
    exists x_new'. split; [done|]. right. split; [lia|done].
  - rewrite lookup_app_l in Ha by (rewrite length_reverse; lia).
    rewrite reverse_lookup in Ha by lia.
    rewrite lookup_app_r in Hb by (rewrite length_reverse; lia).
    rewrite length_reverse, Hk, Nat.sub_diag in Hb. injection Hb as <-.
    replace (length visited - S k)%nat with 0%nat in Ha by lia.
    destruct Hch as [|i p' j row' prow visited Hrow' Hne Hp Hprow Hch];
      [done|].
    simpl in Ha. injection Ha as <-.
    apply getitem_nonneg_Ret in Hp as [Hp _]; [|lia].
    rewrite HP in Hp. injection Hp as <-.
    apply getitem_nonneg_Ret in Hprow as [Hprow _]; [|lia].
    rewrite Hnear in Hprow. injection Hprow as <-.
    exists x_new. split; [done|]. left. split_and!; [lia|done|done].
Qed.

Lemma solution_path_pairs_are_free_witness :
  grow ext0 2 scenario_A 2%float 10 1%float (stream [0.25%float])
  = (Ret scenario_A_result, snd (random_sample (stream [0.25%float])))
  ∧ ∃ x_new,
      is_free_motion ext0 scenario_A (obstacles scenario_A)
        [0%float; 0%float] x_new = Ret true
      ∧ array_equal x_new (x_goal scenario_A) = true.
Proof.
  assert (grow ext0 2 scenario_A 2%float 10 1%float (stream [0.25%float])
          = (Ret scenario_A_result, snd (random_sample (stream [0.25%float]))))
    as Hgrow by (vm_compute; reflexivity).
  split; [exact Hgrow|].
  destruct (solution_path_pairs_are_free ext0 2 scenario_A 2%float 10 1%float
              (stream [0.25%float]) _ scenario_A_result
              [[0%float; 0%float]; [1%float; 1%float]] Hgrow eq_refl 0%nat
              [0%float; 0%float] [1%float; 1%float] eq_refl eq_refl)
    as (x_new & Hfree & [(_ & _ & Hgoal)|[Hlt _]]).
  - exists x_new. split; [exact Hfree|exact Hgoal].
  - simpl in Hlt. lia.
Defined.

(** ** Steering beyond [eps] *)

Lemma getitem_beyond {A : Type} (l : list A) (i : Z) :
  len l ≤ i → getitem l i = Raise IndexError.
Proof.
  intros Hi. unfold getitem, norm_index.
  destruct (i <? - len l); simpl; [done|].
  destruct (len l <=? i) eqn:Hle; [done|lia].
Qed.

(** X25: GeometricRRT steers in the plane.  When the target is not within
    [eps], [steer_towards] reads coordinates 0 and 1 only: it raises
    IndexError on a configuration with fewer, and otherwise returns exactly
    two coordinates, whatever the dimension of the states; stored into a
    row of another width, such a candidate makes the iteration raise
    ValueError. *)
Theorem geometric_far_steering_is_planar (ext : External) (self : RRT)
    (x y : Config) (eps d : float) :
  cls self = GeometricRRT →
  distance ext self x y = Ret d → PrimFloat.ltb d eps = false →
  ((length x < 2 ∨ length y < 2)%nat →
   steer_towards ext self x y eps = Raise IndexError)
  ∧ ((2 ≤ length x)%nat → (2 ≤ length y)%nat →
     ∃ a b,
       steer_towards ext self x y eps = Ret [a; b]
       ∧ ∀ fuel t idx old,
           0 ≤ n t → V t !! Z.to_nat (n t) = Some old → length old ≠ 2%nat →
           is_free_motion ext self (obstacles self) x [a; b] = Ret true →
           extend ext fuel self t idx x [a; b] = Raise ValueError).
Proof.
  intros Hcls Hd Hlt. unfold steer_towards. rewrite Hcls, Hd. simpl.
  rewrite Hlt. split.
  - intros Hshort.
    destruct (decide (length y < 2)%nat) as [Hy|Hy].
    + rewrite (getitem_beyond y 1) by (unfold len; lia). done.
    + destruct y as [|y0 [|y1 y]]; simpl in Hy, Hshort; [lia|lia|].
      rewrite (getitem_nonneg (y0 :: y1 :: y) 1 y1) by (reflexivity || lia).
      simpl.
      rewrite (getitem_beyond x 1) by (unfold len; lia). done.
  - intros Hx Hy.
    destruct x as [|x0 [|x1 x]]; simpl in Hx; [lia|lia|].
    destruct y as [|y0 [|y1 y]]; simpl in Hy; [lia|lia|].
    rewrite (getitem_nonneg (y0 :: y1 :: y) 1 y1) by (reflexivity || lia).
    rewrite (getitem_nonneg (x0 :: x1 :: x) 1 x1) by (reflexivity || lia).
    rewrite (getitem_nonneg (y0 :: y1 :: y) 0 y0) by (reflexivity || lia).
    rewrite (getitem_nonneg (x0 :: x1 :: x) 0 x0) by (reflexivity || lia).
    simpl. eexists _, _. split; [reflexivity|].
    intros fuel t idx old Hn Hold Hwidth Hfree.
    unfold extend. rewrite Hfree. simpl. unfold set_row.
    rewrite norm_index_nonneg.
    2:{ apply lookup_lt_Some in Hold. unfold len. lia. }
    simpl. rewrite Hold.
    destruct (length old) as [|[|[|w]]] eqn:Hw; simpl; done.
Qed.

Lemma geometric_far_steering_is_planar_witness :
  distance ext0 scenario_A [0%float; 0%float; 0%float]
    [3%float; 4%float; 0%float] = Ret 5%float
  ∧ ∃ a b,
      steer_towards ext0 scenario_A [0%float; 0%float; 0%float]
        [3%float; 4%float; 0%float] 1%float = Ret [a; b].
Proof.
  split; [reflexivity|].
  destruct (geometric_far_steering_is_planar ext0 scenario_A
              [0%float; 0%float; 0%float] [3%float; 4%float; 0%float]
              1%float 5%float eq_refl eq_refl eq_refl) as [_ Hplanar].
  destruct Hplanar as (a & b & Hsteer & _); [simpl; lia|simpl; lia|].
  exists a, b. exact Hsteer.
Defined.
